(** * Hash: the 32-byte SHA3-256 value object of [src/model/primitives/hash.ts]

    A shallow embedding of the [Hash] class (constructor, [fromBytes],
    [parse], [digest], [getBytes], [toString], [toShortString], [compareTo],
    [equals], [toJSON]) and of the fragments of the JavaScript runtime and of
    [@std/encoding] that the class calls, followed by the properties of the
    specification that concern them. *)

From Stdlib Require Import ZArith NArith List String Ascii Bool Lia.
From Stdlib Require Import Strings.Byte DecimalString.
Import ListNotations.

Local Open Scope string_scope.
Local Open Scope Z_scope.

(* ================================================================== *)
(** * The JavaScript runtime, as far as hash.ts uses it *)
(* ================================================================== *)

(** Conventions.  A [Uint8Array] is a list of octets.  A string is the
    sequence of the octets of its UTF-8 form, which is what [decodeHex]
    obtains from [TextEncoder.encode] before it looks at any character; the
    only string operations applied to arbitrary input, [startsWith("0x")] and
    the [slice(2)] that follows it, act on ASCII characters, for which code
    units and octets coincide.  A call is a [Completion]: it returns a value
    or throws; an [async] function is modelled by the completion of its
    promise. *)

Module Js.

(** Values that [throw] can raise in this program.  [Error] is the plain
    [Error] object built by the [Hash] constructor; [TypeError] and
    [RangeError] are raised by [decodeHex] (an invalid hex character, an odd
    input length); [Rejected] is any failure reported by the digest
    primitive. *)
Inductive Exception : Type :=
| Error (message : string)
| TypeError (invalid : ascii)
| RangeError
| Rejected (reason : string).

(** A call either returns a value or throws. *)
Inductive Completion (A : Type) : Type :=
| Return (a : A)
| Throw (e : Exception).
Arguments Return {A} a.
Arguments Throw {A} e.

Definition bind {A B : Type} (c : Completion A) (k : A -> Completion B)
  : Completion B :=
  match c with
  | Return a => k a
  | Throw e => Throw e
  end.

Definition returns {A : Type} (c : Completion A) : bool :=
  match c with Return _ => true | Throw _ => false end.

(** [Uint8Array]: a sequence of octets. *)
Definition Uint8Array : Type := list byte.

(** [a[i]] on a typed array: [None] stands for [undefined]. *)
Definition index (a : Uint8Array) (i : nat) : option byte := nth_error a i.

Definition byteZ (b : byte) : Z := Z.of_N (Byte.to_N b).

(** Storing a number into a [Uint8Array] keeps it modulo 256. *)
Definition toUint8 (n : N) : byte :=
  match Byte.of_N (n mod 256) with
  | Some b => b
  | None => x00
  end.

(** [ToInt32]: the wrap-around that every bitwise operator applies. *)
Definition toInt32 (z : Z) : Z := (z + 2 ^ 31) mod 2 ^ 32 - 2 ^ 31.

(** The operand of a bitwise operator: [undefined] converts to 0. *)
Definition operand (v : option byte) : Z :=
  match v with
  | Some b => toInt32 (byteZ b)
  | None => 0
  end.

Definition bitxor (x y : Z) : Z := toInt32 (Z.lxor (toInt32 x) (toInt32 y)).
Definition bitor (x y : Z) : Z := toInt32 (Z.lor (toInt32 x) (toInt32 y)).

(** [a !== b] on two array reads. *)
Definition strict_neq (a b : option byte) : bool :=
  match a, b with
  | Some x, Some y => negb (Byte.eqb x y)
  | None, None => false
  | _, _ => true
  end.

(** [a < b] on two array reads: a comparison with [undefined] is false. *)
Definition less (a b : option byte) : bool :=
  match a, b with
  | Some x, Some y => (Byte.to_N x <? Byte.to_N y)%N
  | _, _ => false
  end.

(** [`${n}`] for a length. *)
Definition numberToString (n : nat) : string :=
  NilEmpty.string_of_uint (Nat.to_uint n).

(** [s.startsWith(p)]. *)
Definition startsWith (s p : string) : bool := String.prefix p s.

(** [s.slice(n)] for [n >= 0]: drop the first [n] characters. *)
Fixpoint slice (s : string) (n : nat) : string :=
  match n, s with
  | O, _ => s
  | S n', String _ s' => slice s' n'
  | S _, EmptyString => EmptyString
  end.

(** [s.substring(start, end)]: both indices are clamped to [0, length] and
    swapped when out of order; an omitted [end] is the length. *)
Definition substring (s : string) (start : Z) (end_ : option Z) : string :=
  let len := Z.of_nat (String.length s) in
  let clamp := fun x => Z.min (Z.max x 0) len in
  let a := clamp start in
  let b := match end_ with Some e => clamp e | None => len end in
  String.substring (Z.to_nat (Z.min a b)) (Z.to_nat (Z.max a b - Z.min a b)) s.

(** Observations of an execution in the constant-time leakage model: the
    outcome of each conditional branch and each array index read. *)
Inductive Leak : Type :=
| Branch (taken : bool)
| Read (i : nat).

End Js.
Import Js.

Declare Scope completion_scope.
Notation "x <- c ;; k" := (bind c (fun x => k))
  (at level 61, c at next level, right associativity) : completion_scope.
Local Open Scope completion_scope.

(* ================================================================== *)
(** * The hexadecimal codec of @std/encoding *)
(* ================================================================== *)

(** [encodeHex] and [decodeHex] are imported by hash.ts from the package
    [@std/encoding]; the model follows that package's hex module: the encoder
    writes two digits of the lowercase table per octet, the decoder accepts
    digits of either case, throws a [TypeError] on any other character and a
    [RangeError] on an odd length.  For an input that has both faults, which
    of the two is reported is the package's choice (here: the character); no
    property below depends on it. *)

Module StdEncoding.

Definition hexTable : string := "0123456789abcdef".

(** [hexTable[k]]. *)
Definition hexDigit (k : N) : ascii :=
  match String.get (N.to_nat k) hexTable with
  | Some c => c
  | None => Ascii.zero
  end.

(** [encodeHex]: for each octet [v], the digits [hexTable[v >> 4]] and
    [hexTable[v & 0x0f]]. *)
Fixpoint encodeHex (src : Uint8Array) : string :=
  match src with
  | [] => EmptyString
  | v :: rest =>
      String (hexDigit (N.shiftr (Byte.to_N v) 4))
        (String (hexDigit (N.land (Byte.to_N v) 15)) (encodeHex rest))
  end.

(** [fromHexChar]: the value of a hex digit of either case; any other
    character throws. *)
Definition fromHexChar (c : ascii) : Completion N :=
  let code := N_of_ascii c in
  if ((48 <=? code) && (code <=? 57))%N then Return (code - 48)%N
  else if ((97 <=? code) && (code <=? 102))%N then Return (code - 97 + 10)%N
  else if ((65 <=? code) && (code <=? 70))%N then Return (code - 65 + 10)%N
  else Throw (TypeError c).

(** [decodeHex]: pairs of digits are read left to right into
    [(a << 4) | b]; a trailing single character is checked and the odd
    length is then reported. *)
Fixpoint decodeHex (src : string) : Completion Uint8Array :=
  match src with
  | EmptyString => Return []
  | String c EmptyString =>
      _ <- fromHexChar c ;; Throw RangeError
  | String c (String d rest) =>
      a <- fromHexChar c ;;
      b <- fromHexChar d ;;
      dst <- decodeHex rest ;;
      Return (toUint8 (N.lor (N.shiftl a 4) b) :: dst)
  end.

End StdEncoding.
Import StdEncoding.

(* ================================================================== *)
(** * class Hash *)
(* ================================================================== *)

(** An instance holds one private field, [hash]. *)
Record Hash : Type := mkHash { hash : Uint8Array }.

(** [Hash.LENGTH]. *)
Definition LENGTH : nat := 32.

(** The message of the constructor's error. *)
Definition validationMessage (actual : nat) : string :=
  "Hash validation failed: expected " ++ numberToString LENGTH
    ++ " bytes, but got " ++ numberToString actual ++ ".".

(** The private constructor: the only place an instance is created. *)
Definition new_Hash (h : Uint8Array) : Completion Hash :=
  if negb (List.length h =? LENGTH)%nat
  then Throw (Error (validationMessage (List.length h)))
  else Return (mkHash h).

Definition fromBytes (bytes : Uint8Array) : Completion Hash := new_Hash bytes.

(** The local [cleanHex] of [parse]. *)
Definition cleanHex (hex : string) : string :=
  if startsWith hex "0x" then slice hex 2 else hex.

Definition parse (hex : string) : Completion Hash :=
  bytes <- decodeHex (cleanHex hex) ;;
  new_Hash bytes.

Section Digest.

(** [crypto.subtle.digest("SHA3-256", _)], the hashing primitive; its promise
    resolves with a buffer or rejects. *)
Variable subtle_digest : Uint8Array -> Completion Uint8Array.

Definition digest (data : Uint8Array) : Completion Hash :=
  arrayBuffer <- subtle_digest data ;;
  new_Hash arrayBuffer.

(** The instances a program can hold: the constructor is private, so each
    one was returned by one of the three static factories. *)
Inductive Constructed : Hash -> Prop :=
| by_fromBytes bytes h : fromBytes bytes = Return h -> Constructed h
| by_parse hex h : parse hex = Return h -> Constructed h
| by_digest data h : digest data = Return h -> Constructed h.

End Digest.

Definition getBytes (this : Hash) : Uint8Array := hash this.

Definition toString (this : Hash) : string := encodeHex (hash this).

Definition toShortString (this : Hash) : string :=
  let hex := toString this in
  substring hex 0 (Some 6) ++ "..."
    ++ substring hex (Z.of_nat (String.length hex) - 6) None.

(** The loop of [compareTo], from index [i]; [fuel] bounds the number of
    loop tests.  The second component records what the run lets an observer
    of branches and indices see. *)
Fixpoint compareTo_loop (fuel i : nat) (this other : Uint8Array)
  : Z * list Leak :=
  match fuel with
  | O => (0, [])
  | S fuel' =>
      if (i <? LENGTH)%nat then
        let a := index this i in
        let b := index other i in
        if strict_neq a b then
          ((if less a b then -1 else 1),
           [Branch true; Read i; Read i; Branch true; Branch (less a b)])
        else
          let (r, t) := compareTo_loop fuel' (S i) this other in
          (r, Branch true :: Read i :: Read i :: Branch false :: t)
      else (0, [Branch false])
  end.

Definition compareTo_run (this other : Hash) : Z * list Leak :=
  compareTo_loop (S LENGTH) 0 (hash this) (hash other).

Definition compareTo (this other : Hash) : Z := fst (compareTo_run this other).

(** The loop of [equals], from index [i] with accumulator [diff]. *)
Fixpoint equals_loop (fuel i : nat) (diff : Z) (this other : Uint8Array)
  : Z * list Leak :=
  match fuel with
  | O => (diff, [])
  | S fuel' =>
      if (i <? LENGTH)%nat then
        let diff' :=
          bitor diff (bitxor (operand (index this i)) (operand (index other i))) in
        let (r, t) := equals_loop fuel' (S i) diff' this other in
        (r, Branch true :: Read i :: Read i :: t)
      else (diff, [Branch false])
  end.

(** [equals]: [None] is a [null] argument. *)
Definition equals_run (this : Hash) (other : option Hash) : bool * list Leak :=
  match other with
  | None => (false, [Branch true])
  | Some o =>
      let (diff, t) := equals_loop (S LENGTH) 0 0 (hash this) (hash o) in
      ((diff =? 0), Branch false :: t)
  end.

Definition equals (this : Hash) (other : option Hash) : bool :=
  fst (equals_run this other).

Definition toJSON (this : Hash) : string := toString this.

(** [emptyHash], built when the module is loaded. *)
Definition emptyHash : Completion Hash :=
  parse "0000000000000000000000000000000000000000000000000000000000000000".

(* ================================================================== *)
(** * Vocabulary of the properties *)
(* ================================================================== *)

(** The class invariant. *)
Definition valid (h : Hash) : Prop := List.length (hash h) = LENGTH.

(** Characters that [decodeHex] accepts, and those that [encodeHex] emits. *)
Definition isHexDigit (c : ascii) : bool :=
  let code := N_of_ascii c in
  (((48 <=? code) && (code <=? 57))
   || ((97 <=? code) && (code <=? 102))
   || ((65 <=? code) && (code <=? 70)))%N.

Definition isLowerHexDigit (c : ascii) : bool :=
  let code := N_of_ascii c in
  (((48 <=? code) && (code <=? 57)) || ((97 <=? code) && (code <=? 102)))%N.

Fixpoint allChars (p : ascii -> bool) (s : string) : bool :=
  match s with
  | EmptyString => true
  | String c s' => p c && allChars p s'
  end.

(** A well-formed textual hash: 64 hex digits. *)
Definition validHex (s : string) : Prop :=
  String.length s = 64%nat /\ allChars isHexDigit s = true.

(** The comparison that the specification describes: unsigned, octet by
    octet, decided at the first position where the sequences differ. *)
Fixpoint lexicographic (x y : Uint8Array) : Z :=
  match x, y with
  | a :: x', b :: y' =>
      if (Byte.to_N a =? Byte.to_N b)%N then lexicographic x' y'
      else if (Byte.to_N a <? Byte.to_N b)%N then -1 else 1
  | _, _ => 0
  end.

(** The order induced by [compareTo]. *)
Definition precedes (a b : Hash) : Prop := compareTo a b <= 0.

(** The conditions under which the specification has [parse] fail, on the
    string left after the prefix is removed. *)
Definition rejected (clean : string) : bool :=
  negb (allChars isHexDigit clean)
  || Nat.odd (String.length clean)
  || negb (String.length clean / 2 =? 32)%nat.

(** What a run of [equals] on a present argument lets an observer see. *)
Definition fullScan : list Leak :=
  (Branch false
     :: flat_map (fun i => [Branch true; Read i; Read i]) (seq 0 LENGTH)
     ++ [Branch false])%list.

(** The accumulator of [equals] after the octets at the given indices. *)
Definition accumulate (this other : Uint8Array) (indices : list nat) : Z :=
  fold_left
    (fun diff i =>
       bitor diff (bitxor (operand (index this i)) (operand (index other i))))
    indices 0.

(** Values from the test-suite. *)
Definition ZEROS_64 : string :=
  "0000000000000000000000000000000000000000000000000000000000000000".
Definition TEST_HEX_1 : string :=
  "0000000000000000000000000000000000000000000000000000000000000001".
Definition TEST_HEX_2 : string :=
  "0000000000000000000000000000000000000000000000000000000000000002".

Definition lastByteOne : Uint8Array := (repeat x00 31 ++ [x01])%list.

Definition hashZero : Hash := mkHash (repeat x00 32).
Definition hashOne : Hash := mkHash lastByteOne.
Definition hashTwo : Hash := mkHash (repeat x00 31 ++ [x02])%list.

(* ================================================================== *)
(** * The class over a store of arrays *)
(* ================================================================== *)

(** The definitions above treat a [Uint8Array] as a value.  In the program
    it is an object that its holders can write to, and the constructor and
    [getBytes] each build a new one with [new Uint8Array(_)].  Here the
    arrays live in a store, a reference is a position in it, and the same
    three functions are given on references. *)

Module Heap.

Definition Ref : Type := nat.

(** The content of every array allocated so far. *)
Definition Store : Type := list Uint8Array.

Definition deref (st : Store) (r : Ref) : option Uint8Array := nth_error st r.

(** [new Uint8Array(content)]: a new array with a copy of the content. *)
Definition alloc (st : Store) (content : Uint8Array) : Ref * Store :=
  (List.length st, (st ++ [content])%list).

Fixpoint replace {A : Type} (l : list A) (i : nat) (v : A) : list A :=
  match l, i with
  | [], _ => []
  | _ :: l', O => v :: l'
  | x :: l', S i' => x :: replace l' i' v
  end.

(** [a[i] = v] on a typed array: the value is stored modulo 256, and a
    write outside the array is ignored. *)
Definition assign (st : Store) (r : Ref) (i : nat) (v : N) : Store :=
  match deref st r with
  | Some content => replace st r (replace content i (toUint8 v))
  | None => st
  end.

(** A sequence of such writes, each [(r, i, v)]. *)
Definition writes (st : Store) (ws : list (Ref * nat * N)) : Store :=
  fold_left (fun s w => assign s (fst (fst w)) (snd (fst w)) (snd w)) ws st.

(** An instance: the reference held in the private field [hash]. *)
Record HashObject : Type := mkObject { buffer : Ref }.

(** The constructor; [None] when [hash] is not a reference of the store. *)
Definition new_Hash (st : Store) (hash : Ref)
  : option (Completion HashObject * Store) :=
  match deref st hash with
  | None => None
  | Some content =>
      if negb (List.length content =? LENGTH)%nat
      then Some (Throw (Error (validationMessage (List.length content))), st)
      else let (r, st') := alloc st content in
           Some (Return (mkObject r), st')
  end.

Definition fromBytes (st : Store) (bytes : Ref)
  : option (Completion HashObject * Store) :=
  new_Hash st bytes.

Definition getBytes (st : Store) (this : HashObject) : option (Ref * Store) :=
  match deref st (buffer this) with
  | None => None
  | Some content => Some (alloc st content)
  end.

End Heap.

(* ================================================================== *)
(** * Further vocabulary *)
(* ================================================================== *)

(** The string left after the prefix as the specification words it: an
    optional [0x] or [0X] removed.  [parse] itself uses [cleanHex]. *)
Definition specClean (hex : string) : string :=
  if startsWith hex "0x" || startsWith hex "0X" then slice hex 2 else hex.

(** The lowercase form of a character and of a string. *)
Definition lowercase (c : ascii) : ascii :=
  let code := N_of_ascii c in
  if ((65 <=? code) && (code <=? 90))%N then ascii_of_N (code + 32) else c.

Fixpoint lowercaseString (s : string) : string :=
  match s with
  | EmptyString => EmptyString
  | String c s' => String (lowercase c) (lowercaseString s')
  end.

(** [c] is one of the characters of [s]. *)
Definition occurs (c : ascii) (s : string) : Prop :=
  In c (list_ascii_of_string s).

(** The number that a comparison of strings corresponds to. *)
Definition sign (c : comparison) : Z :=
  match c with Lt => -1 | Eq => 0 | Gt => 1 end.

(** Every octet, and every hex digit value. *)
Definition allOctets : list byte :=
  map (fun n => toUint8 (N.of_nat n)) (seq 0 256).

Definition allNibbles : list N := map N.of_nat (seq 0 16).

Definition allChars256 : list ascii :=
  map (fun n => ascii_of_N (N.of_nat n)) (seq 0 256).

(** What a run of [compareTo] lets an observer see when the first [k] pairs
    agree and the pair at index [k] differs. *)
Definition scanUntil (k : nat) (below : bool) : list Leak :=
  (flat_map (fun j => [Branch true; Read j; Read j; Branch false]) (seq 0 k)
     ++ [Branch true; Read k; Read k; Branch true; Branch below])%list.

(* ================================================================== *)
(** * The test-suite, replayed on the model *)
(* ================================================================== *)

Example test_parse_valid :
  bind (parse TEST_HEX_1) (fun h => Return (toString h)) = Return TEST_HEX_1
  /\ bind (parse ("0x" ++ TEST_HEX_1)) (fun h => Return (toString h))
     = Return TEST_HEX_1.
Proof. split; reflexivity. Qed.

Example test_parse_invalid :
  parse "1234"
  = Throw (Error "Hash validation failed: expected 32 bytes, but got 2.")
  /\ parse "000000000000000000000000000000000000000000000000000000000000000g"
     = Throw (TypeError "g").
Proof. split; reflexivity. Qed.

Example test_fromBytes :
  bind (fromBytes lastByteOne) (fun h => Return (getBytes h)) = Return lastByteOne
  /\ fromBytes (repeat x00 33)
     = Throw (Error "Hash validation failed: expected 32 bytes, but got 33.").
Proof. split; reflexivity. Qed.

Example test_emptyHash :
  emptyHash = Return (mkHash (repeat x00 32)).
Proof. reflexivity. Qed.

Example test_instance_methods :
  bind (parse TEST_HEX_1) (fun h1 =>
  bind (parse TEST_HEX_2) (fun h2 =>
    Return (toShortString h1, equals h1 (Some h1), equals h1 (Some h2),
            equals h1 None, compareTo h1 h1, compareTo h1 h2, compareTo h2 h1)))
  = Return ("000000...000001", true, false, false, 0, -1, 1).
Proof. reflexivity. Qed.

(* ================================================================== *)
(** * The runtime fragments *)
(* ================================================================== *)

Lemma bind_Return_inv {A B} (c : Completion A) (k : A -> Completion B) b :
  bind c k = Return b -> exists a, c = Return a /\ k a = Return b.
Proof. destruct c as [a|e]; simpl; [eauto | discriminate]. Qed.

Lemma byteZ_range b : 0 <= byteZ b < 256.
Proof. unfold byteZ. pose proof (Byte.to_N_bounded b). lia. Qed.

Lemma byteZ_inj a b : byteZ a = byteZ b -> a = b.
Proof.
  unfold byteZ. intros E. apply N2Z.inj in E.
  assert (Byte.of_N (Byte.to_N a) = Byte.of_N (Byte.to_N b)) as H
    by now rewrite E.
  rewrite !Byte.of_to_N in H. congruence.
Qed.

Lemma toInt32_small z : - 2 ^ 31 <= z < 2 ^ 31 -> toInt32 z = z.
Proof. intros H. unfold toInt32. rewrite Z.mod_small; lia. Qed.

(** Bitwise operations keep 8-bit values 8-bit. *)
Lemma lor_u8 x y : 0 <= x < 256 -> 0 <= y < 256 -> 0 <= Z.lor x y < 256.
Proof.
  intros Hx Hy. split; [apply Z.lor_nonneg; lia |].
  destruct (Z.eq_dec (Z.lor x y) 0) as [->|N]; [lia |].
  change 256 with (2 ^ 8). apply Z.log2_lt_pow2.
  - assert (0 <= Z.lor x y) by (apply Z.lor_nonneg; lia). lia.
  - rewrite Z.log2_lor by lia.
    destruct (Z.eq_dec x 0) as [->|], (Z.eq_dec y 0) as [->|]; simpl;
      try (rewrite ?Z.max_l, ?Z.max_r by (apply Z.log2_nonneg)); try lia;
      try (apply Z.log2_lt_pow2; lia).
    apply Z.max_lub_lt; apply Z.log2_lt_pow2; lia.
Qed.

Lemma lxor_u8 x y : 0 <= x < 256 -> 0 <= y < 256 -> 0 <= Z.lxor x y < 256.
Proof.
  intros Hx Hy. split; [apply Z.lxor_nonneg; lia |].
  destruct (Z.eq_dec (Z.lxor x y) 0) as [->|N]; [lia |].
  change 256 with (2 ^ 8). apply Z.log2_lt_pow2.
  - assert (0 <= Z.lxor x y) by (apply Z.lxor_nonneg; lia). lia.
  - eapply Z.le_lt_trans; [apply Z.log2_lxor; lia |].
    destruct (Z.eq_dec x 0) as [->|], (Z.eq_dec y 0) as [->|]; simpl; try lia;
      try (rewrite ?Z.max_l, ?Z.max_r by (apply Z.log2_nonneg));
      try (apply Z.log2_lt_pow2; lia).
    apply Z.max_lub_lt; apply Z.log2_lt_pow2; lia.
Qed.

Lemma bitxor_u8 x y :
  0 <= x < 256 -> 0 <= y < 256 -> bitxor x y = Z.lxor x y.
Proof.
  intros Hx Hy. unfold bitxor. rewrite (toInt32_small x), (toInt32_small y) by lia.
  apply toInt32_small. pose proof (lxor_u8 x y Hx Hy). lia.
Qed.

Lemma bitor_u8 x y :
  0 <= x < 256 -> 0 <= y < 256 -> bitor x y = Z.lor x y.
Proof.
  intros Hx Hy. unfold bitor. rewrite (toInt32_small x), (toInt32_small y) by lia.
  apply toInt32_small. pose proof (lor_u8 x y Hx Hy). lia.
Qed.

Lemma operand_Some b : operand (Some b) = byteZ b.
Proof. simpl. apply toInt32_small. pose proof (byteZ_range b). lia. Qed.

(* ================================================================== *)
(** * The codec: [decodeHex] inverts [encodeHex] *)
(* ================================================================== *)

(** Strings taken two characters at a time, the way [decodeHex] reads them. *)
Lemma string_pair_ind (P : string -> Prop) :
  P EmptyString ->
  (forall c, P (String c EmptyString)) ->
  (forall c d s, P s -> P (String c (String d s))) ->
  forall s, P s.
Proof.
  intros H0 H1 H2.
  assert (forall s, P s /\ forall c, P (String c s)) as H.
  { induction s as [|d s [IHs IHc]]; split; auto. }
  intros s. apply H.
Qed.

Lemma decodeHex_encoded_octet v rest :
  decodeHex
    (String (hexDigit (N.shiftr (Byte.to_N v) 4))
       (String (hexDigit (N.land (Byte.to_N v) 15)) rest))
  = bind (decodeHex rest) (fun dst => Return (v :: dst)).
Proof. destruct v; reflexivity. Qed.

Lemma decodeHex_encodeHex bs : decodeHex (encodeHex bs) = Return bs.
Proof.
  induction bs as [|v bs IH]; [reflexivity |].
  cbn [encodeHex]. rewrite decodeHex_encoded_octet, IH. reflexivity.
Qed.

Lemma encodeHex_length bs :
  String.length (encodeHex bs) = (2 * List.length bs)%nat.
Proof. induction bs as [|v bs IH]; cbn [encodeHex String.length List.length]; lia. Qed.

Lemma hexDigit_lower v :
  isLowerHexDigit (hexDigit (N.shiftr (Byte.to_N v) 4)) = true
  /\ isLowerHexDigit (hexDigit (N.land (Byte.to_N v) 15)) = true.
Proof. destruct v; split; reflexivity. Qed.

Lemma encodeHex_lower bs : allChars isLowerHexDigit (encodeHex bs) = true.
Proof.
  induction bs as [|v bs IH]; [reflexivity |].
  cbn [encodeHex allChars]. destruct (hexDigit_lower v) as [-> ->].
  exact IH.
Qed.

Lemma fromHexChar_returns c : returns (fromHexChar c) = isHexDigit c.
Proof.
  unfold fromHexChar, isHexDigit.
  destruct ((48 <=? N_of_ascii c) && (N_of_ascii c <=? 57))%N; [reflexivity |].
  destruct ((97 <=? N_of_ascii c) && (N_of_ascii c <=? 102))%N; [reflexivity |].
  destruct ((65 <=? N_of_ascii c) && (N_of_ascii c <=? 70))%N; reflexivity.
Qed.

Lemma fromHexChar_digit c :
  isHexDigit c = true -> exists n, fromHexChar c = Return n.
Proof.
  rewrite <- fromHexChar_returns.
  destruct (fromHexChar c) as [n|e]; [eauto | discriminate].
Qed.

(** [decodeHex] returns on every even-length string of hex digits, with one
    octet per pair of digits ... *)
Lemma decodeHex_accepts s :
  Nat.even (String.length s) = true ->
  allChars isHexDigit s = true ->
  exists bs, decodeHex s = Return bs
             /\ String.length s = (2 * List.length bs)%nat.
Proof.
  induction s as [| c | c d s IH] using string_pair_ind; intros He Hc.
  - exists []. split; reflexivity.
  - discriminate He.
  - cbn [allChars] in Hc.
    apply andb_true_iff in Hc as [Hc1 Hc].
    apply andb_true_iff in Hc as [Hc2 Hc].
    destruct (fromHexChar_digit c Hc1) as [a Ha].
    destruct (fromHexChar_digit d Hc2) as [b Hb].
    destruct (IH He Hc) as [bs [Hbs Hlen]].
    exists (toUint8 (N.lor (N.shiftl a 4) b) :: bs).
    cbn [decodeHex]. rewrite Ha, Hb, Hbs. cbn [bind].
    split; [reflexivity |]. cbn [String.length List.length]. lia.
Qed.

(** ... and on no other string. *)
Lemma decodeHex_returns_inv s bs :
  decodeHex s = Return bs ->
  allChars isHexDigit s = true
  /\ String.length s = (2 * List.length bs)%nat.
Proof.
  revert bs.
  induction s as [| c | c d s IH] using string_pair_ind; intros bs H.
  - injection H as <-. split; reflexivity.
  - cbn [decodeHex] in H. destruct (fromHexChar c); discriminate H.
  - cbn [decodeHex] in H.
    apply bind_Return_inv in H as [a [Ha H]].
    apply bind_Return_inv in H as [b [Hb H]].
    apply bind_Return_inv in H as [dst [Hd H]].
    injection H as <-.
    destruct (IH dst Hd) as [Hc Hlen].
    cbn [allChars]. rewrite <- !fromHexChar_returns, Ha, Hb, Hc.
    split; [reflexivity |]. cbn [String.length List.length]. lia.
Qed.

(** A string of hex digits does not start with the prefix that [parse]
    strips: its second character would be an [x]. *)
Lemma hex_digits_not_prefixed s :
  allChars isHexDigit s = true -> startsWith s "0x" = false.
Proof.
  unfold startsWith. destruct s as [|c [|d s]]; cbn [prefix]; intros H.
  - reflexivity.
  - destruct (ascii_dec "0" c); reflexivity.
  - destruct (ascii_dec "0" c); [| reflexivity].
    destruct (ascii_dec "x" d) as [<-|]; [| reflexivity].
    cbn [allChars] in H. apply andb_true_iff in H as [_ H].
    apply andb_true_iff in H as [H _]. discriminate H.
Qed.

Lemma lower_is_hex s :
  allChars isLowerHexDigit s = true -> allChars isHexDigit s = true.
Proof.
  induction s as [|c s IH]; [reflexivity |]. cbn [allChars].
  intros H. apply andb_true_iff in H as [Hc Hs].
  rewrite (IH Hs), andb_true_r. unfold isHexDigit, isLowerHexDigit in *.
  rewrite Hc. reflexivity.
Qed.

(* ================================================================== *)
(** * The constructor *)
(* ================================================================== *)

Lemma new_Hash_accepts bs :
  List.length bs = LENGTH -> new_Hash bs = Return (mkHash bs).
Proof. intros H. unfold new_Hash. rewrite H. reflexivity. Qed.

Lemma new_Hash_rejects bs :
  List.length bs <> LENGTH ->
  new_Hash bs = Throw (Error (validationMessage (List.length bs))).
Proof.
  intros H. unfold new_Hash.
  destruct (Nat.eqb_spec (List.length bs) LENGTH); [contradiction | reflexivity].
Qed.

Lemma new_Hash_valid bs h : new_Hash bs = Return h -> hash h = bs /\ valid h.
Proof.
  unfold new_Hash, valid.
  destruct (Nat.eqb_spec (List.length bs) LENGTH) as [E|]; simpl; [| discriminate].
  intros [= <-]. split; [reflexivity | exact E].
Qed.

(* ================================================================== *)
(** * The two loops *)
(* ================================================================== *)

Lemma skipn_index (x : Uint8Array) i a :
  index x i = Some a -> skipn i x = a :: skipn (S i) x.
Proof.
  unfold index. revert x. induction i as [|i IH]; intros [|b x] H;
    try discriminate H.
  - injection H as ->. reflexivity.
  - cbn [nth_error] in H. change (skipn (S i) (b :: x)) with (skipn i x).
    rewrite (IH x H). reflexivity.
Qed.

Lemma index_defined (x : Uint8Array) i :
  (i < List.length x)%nat -> exists a, index x i = Some a.
Proof.
  intros H. unfold index. destruct (nth_error x i) as [a|] eqn:E; [eauto |].
  apply nth_error_None in E. lia.
Qed.

Lemma byte_to_N_inj a b : Byte.to_N a = Byte.to_N b -> a = b.
Proof. intros E. apply byteZ_inj. unfold byteZ. now rewrite E. Qed.

Lemma strict_neq_defined a b :
  strict_neq (Some a) (Some b) = negb (Byte.to_N a =? Byte.to_N b)%N.
Proof.
  cbn [strict_neq]. f_equal.
  destruct (N.eqb_spec (Byte.to_N a) (Byte.to_N b)) as [E|N].
  - apply byte_dec_lb, byte_to_N_inj, E.
  - destruct (Byte.eqb a b) eqn:E; [| reflexivity].
    apply byte_dec_bl in E. subst. contradiction.
Qed.

(** On two 32-octet arrays the loop of [compareTo] computes the
    lexicographic comparison of what is left from index [i] on. *)
Lemma compareTo_loop_lexicographic fuel : forall i x y,
  List.length x = LENGTH -> List.length y = LENGTH ->
  (LENGTH - i < fuel)%nat ->
  fst (compareTo_loop fuel i x y) = lexicographic (skipn i x) (skipn i y).
Proof.
  induction fuel as [|fuel IH]; intros i x y Hx Hy Hf; [lia |].
  cbn [compareTo_loop].
  destruct (Nat.ltb_spec i LENGTH) as [Hi|Hi].
  - destruct (index_defined x i) as [a Ha]; [lia |].
    destruct (index_defined y i) as [b Hb]; [lia |].
    rewrite Ha, Hb, strict_neq_defined.
    rewrite (skipn_index x i a Ha), (skipn_index y i b Hb).
    cbn [lexicographic less].
    destruct (Byte.to_N a =? Byte.to_N b)%N; cbn [negb].
    + specialize (IH (S i) x y Hx Hy).
      destruct (compareTo_loop fuel (S i) x y) as [r t].
      cbn [fst] in *. apply IH. lia.
    + reflexivity.
  - rewrite !skipn_all2 by lia. reflexivity.
Qed.

(** What the loop of [equals] lets an observer see depends on nothing but
    the index it starts from. *)
Lemma equals_loop_leak fuel : forall i diff x y,
  (LENGTH - i < fuel)%nat ->
  snd (equals_loop fuel i diff x y)
  = (flat_map (fun j => [Branch true; Read j; Read j]) (seq i (LENGTH - i))
       ++ [Branch false])%list.
Proof.
  induction fuel as [|fuel IH]; intros i diff x y Hf; [lia |].
  cbn [equals_loop].
  destruct (Nat.ltb_spec i LENGTH) as [Hi|Hi].
  - specialize (IH (S i)
      (bitor diff (bitxor (operand (index x i)) (operand (index y i)))) x y).
    destruct (equals_loop fuel (S i) _ x y) as [r t]. cbn [snd] in *.
    rewrite IH by lia.
    replace (LENGTH - i)%nat with (S (LENGTH - S i)) by lia.
    reflexivity.
  - replace (LENGTH - i)%nat with 0%nat by lia. reflexivity.
Qed.

(** Its result is the accumulator folded over the remaining indices. *)
Lemma equals_loop_result fuel : forall i diff x y,
  (LENGTH - i < fuel)%nat ->
  fst (equals_loop fuel i diff x y)
  = fold_left
      (fun d j => bitor d (bitxor (operand (index x j)) (operand (index y j))))
      (seq i (LENGTH - i)) diff.
Proof.
  induction fuel as [|fuel IH]; intros i diff x y Hf; [lia |].
  cbn [equals_loop].
  destruct (Nat.ltb_spec i LENGTH) as [Hi|Hi].
  - specialize (IH (S i)
      (bitor diff (bitxor (operand (index x i)) (operand (index y i)))) x y).
    destruct (equals_loop fuel (S i) _ x y) as [r t]. cbn [fst] in *.
    rewrite IH by lia.
    replace (LENGTH - i)%nat with (S (LENGTH - S i)) by lia.
    reflexivity.
  - replace (LENGTH - i)%nat with 0%nat by lia. reflexivity.
Qed.

(** The accumulator ends at zero exactly when it started at zero and no
    remaining pair of octets differs. *)
Lemma accumulator_zero n : forall i diff x y,
  (i + n <= List.length x)%nat -> (i + n <= List.length y)%nat ->
  0 <= diff < 256 ->
  fold_left
    (fun d j => bitor d (bitxor (operand (index x j)) (operand (index y j))))
    (seq i n) diff = 0
  <-> diff = 0 /\ firstn n (skipn i x) = firstn n (skipn i y).
Proof.
  induction n as [|n IH]; intros i diff x y Hx Hy Hd.
  - cbn [seq fold_left firstn]. tauto.
  - destruct (index_defined x i) as [a Ha]; [lia |].
    destruct (index_defined y i) as [b Hb]; [lia |].
    cbn [seq fold_left]. rewrite Ha, Hb, !operand_Some.
    pose proof (byteZ_range a) as Ra. pose proof (byteZ_range b) as Rb.
    pose proof (lxor_u8 _ _ Ra Rb) as Rx.
    rewrite bitxor_u8, bitor_u8 by assumption.
    rewrite IH by (try lia; apply lor_u8; assumption).
    rewrite (skipn_index x i a Ha), (skipn_index y i b Hb).
    cbn [firstn]. rewrite Z.lor_eq_0_iff, Z.lxor_eq_0_iff.
    split.
    + intros [[Hd0 E] Hr]. apply byteZ_inj in E. subst. rewrite Hr. tauto.
    + intros [Hd0 E]. injection E as -> Hr. tauto.
Qed.

Lemma equals_present a b :
  valid a -> valid b -> (equals a (Some b) = true <-> hash a = hash b).
Proof.
  unfold valid. intros Ha Hb. unfold equals, equals_run.
  pose proof (equals_loop_result (S LENGTH) 0 0 (hash a) (hash b)) as R.
  destruct (equals_loop (S LENGTH) 0 0 (hash a) (hash b)) as [diff t].
  cbn [fst] in *. rewrite Z.eqb_eq. rewrite R by lia.
  replace (LENGTH - 0)%nat with LENGTH by lia.
  rewrite accumulator_zero by (rewrite ?Ha, ?Hb; lia).
  cbn [skipn].
  rewrite <- Ha at 1. rewrite <- Hb at 1. rewrite !firstn_all. tauto.
Qed.

Lemma compareTo_lexicographic a b :
  valid a -> valid b -> compareTo a b = lexicographic (hash a) (hash b).
Proof.
  intros Ha Hb. unfold compareTo, compareTo_run.
  rewrite compareTo_loop_lexicographic by (assumption || lia).
  reflexivity.
Qed.

(* ================================================================== *)
(** * The lexicographic order on octet sequences *)
(* ================================================================== *)

Ltac octets a b :=
  destruct (N.eqb_spec (Byte.to_N a) (Byte.to_N b));
  destruct (N.ltb_spec (Byte.to_N a) (Byte.to_N b)).

Lemma lexicographic_range x : forall y,
  lexicographic x y = -1 \/ lexicographic x y = 0 \/ lexicographic x y = 1.
Proof.
  induction x as [|a x IH]; intros [|b y]; cbn [lexicographic]; auto.
  octets a b; auto.
Qed.

Lemma lexicographic_refl x : lexicographic x x = 0.
Proof.
  induction x as [|a x IH]; [reflexivity |].
  cbn [lexicographic]. rewrite N.eqb_refl. exact IH.
Qed.

Lemma lexicographic_zero x : forall y,
  List.length x = List.length y -> lexicographic x y = 0 -> x = y.
Proof.
  induction x as [|a x IH]; intros [|b y] Hl H; try discriminate Hl.
  - reflexivity.
  - cbn [lexicographic] in H. octets a b; try discriminate H.
    + f_equal; [apply byte_to_N_inj; assumption |].
      apply IH; [injection Hl; auto | exact H].
    + f_equal; [apply byte_to_N_inj; assumption |].
      apply IH; [injection Hl; auto | exact H].
Qed.

Lemma lexicographic_flip x : forall y,
  List.length x = List.length y -> lexicographic y x = - lexicographic x y.
Proof.
  induction x as [|a x IH]; intros [|b y] Hl; try discriminate Hl.
  - reflexivity.
  - cbn [lexicographic]. octets a b; octets b a; try lia;
      apply IH; injection Hl; auto.
Qed.

Lemma lexicographic_trans x : forall y z,
  List.length x = List.length y -> List.length y = List.length z ->
  lexicographic x y <= 0 -> lexicographic y z <= 0 -> lexicographic x z <= 0.
Proof.
  induction x as [|a x IH]; intros [|b y] [|c z] Hxy Hyz;
    try discriminate Hxy; try discriminate Hyz; cbn [lexicographic];
    try lia.
  injection Hxy as Hxy. injection Hyz as Hyz.
  octets a b; octets b c; octets a c; try lia.
  all: try (intros; eapply IH; eassumption).
Qed.

(** The result is decided at the first index where the sequences differ. *)
Lemma lexicographic_first_difference k : forall x y a b,
  (forall j, (j < k)%nat -> index x j = index y j) ->
  index x k = Some a -> index y k = Some b -> a <> b ->
  lexicographic x y = if (Byte.to_N a <? Byte.to_N b)%N then -1 else 1.
Proof.
  unfold index.
  induction k as [|k IH]; intros [|a0 x] [|b0 y] a b Hpre Ha Hb Hne;
    try discriminate Ha; try discriminate Hb.
  - injection Ha as ->. injection Hb as ->. cbn [lexicographic].
    destruct (N.eqb_spec (Byte.to_N a) (Byte.to_N b)) as [E|_]; [| reflexivity].
    apply byte_to_N_inj in E. contradiction.
  - cbn [lexicographic].
    assert (Some a0 = Some b0) as [= ->] by (apply (Hpre 0%nat); lia).
    rewrite N.eqb_refl. apply IH; try assumption.
    intros j Hj. apply (Hpre (S j)). lia.
Qed.

(* ================================================================== *)
(** * Strings *)
(* ================================================================== *)

Lemma string_length_app s t :
  String.length (s ++ t) = (String.length s + String.length t)%nat.
Proof. induction s as [|c s IH]; cbn [append String.length]; [| rewrite IH]; reflexivity. Qed.

Lemma substring_length s : forall n m,
  (n + m <= String.length s)%nat ->
  String.length (String.substring n m s) = m.
Proof.
  induction s as [|c s IH]; intros [|n] [|m] H; cbn [String.length] in *;
    cbn [String.substring String.length]; try lia.
  - rewrite IH by lia. reflexivity.
  - apply IH. lia.
  - apply IH. lia.
Qed.

Lemma substring_clamped s a e :
  0 <= a <= e -> e <= Z.of_nat (String.length s) ->
  substring s a (Some e) = String.substring (Z.to_nat a) (Z.to_nat (e - a)) s.
Proof.
  intros H1 H2. unfold substring.
  rewrite (Z.max_l a 0), (Z.max_l e 0) by lia.
  rewrite (Z.min_l a), (Z.min_l e) by lia.
  rewrite (Z.min_l a e), (Z.max_r a e) by lia. reflexivity.
Qed.

Lemma substring_to_end s a :
  0 <= a <= Z.of_nat (String.length s) ->
  substring s a None
  = String.substring (Z.to_nat a) (String.length s - Z.to_nat a) s.
Proof.
  intros H. unfold substring.
  rewrite (Z.max_l a 0) by lia.
  rewrite (Z.min_l a (Z.of_nat (String.length s))) by lia.
  rewrite Z.min_l, Z.max_r by lia.
  f_equal. lia.
Qed.

Lemma toString_length h : valid h -> String.length (toString h) = 64%nat.
Proof. unfold valid, toString. intros H. rewrite encodeHex_length, H. reflexivity. Qed.

Lemma parse_toString h : valid h -> parse (toString h) = Return h.
Proof.
  intros H. unfold parse, cleanHex, toString.
  rewrite hex_digits_not_prefixed by (apply lower_is_hex, encodeHex_lower).
  rewrite decodeHex_encodeHex. cbn [bind].
  rewrite new_Hash_accepts by exact H. destruct h; reflexivity.
Qed.

Lemma cleanHex_lower_prefix s : cleanHex ("0x" ++ s) = s.
Proof.
  unfold cleanHex, startsWith. cbn [append prefix].
  destruct (ascii_dec "0" "0") as [_|N]; [| contradiction].
  destruct (ascii_dec "x" "x") as [_|N]; [| contradiction].
  destruct s; reflexivity.
Qed.

Lemma cleanHex_upper_prefix s : cleanHex ("0X" ++ s) = "0X" ++ s.
Proof.
  unfold cleanHex, startsWith. cbn [append prefix].
  destruct (ascii_dec "0" "0") as [_|N]; [| contradiction].
  destruct (ascii_dec "x" "X") as [E|_]; [discriminate E | reflexivity].
Qed.

(** [parse] on a string of 64 hex digits. *)
Lemma parse_validHex s :
  validHex s ->
  exists bs, decodeHex s = Return bs /\ List.length bs = 32%nat
             /\ parse s = Return (mkHash bs).
Proof.
  intros [Hl Hc].
  destruct (decodeHex_accepts s) as [bs [Hd Hn]]; [rewrite Hl; reflexivity | exact Hc |].
  assert (List.length bs = 32%nat) as Hb by lia.
  exists bs. repeat split; try assumption.
  unfold parse, cleanHex. rewrite hex_digits_not_prefixed by exact Hc.
  rewrite Hd. cbn [bind]. apply new_Hash_accepts. exact Hb.
Qed.

(* ================================================================== *)
(** * Properties of the specification *)
(* ================================================================== *)

(** C1. Round-trip law: for every 32-byte sequence [b], [fromBytes b]
    returns a Hash [h]; [toString h] is the 64-character lowercase
    hexadecimal encoding of the bytes, without prefix; and
    [parse (toString h)] returns a Hash equal to [h], structurally and
    according to [equals]. *)
Theorem round_trip (b : Uint8Array) :
  List.length b = 32%nat ->
  exists h h',
    fromBytes b = Return h
    /\ toString h = encodeHex b
    /\ String.length (toString h) = 64%nat
    /\ allChars isLowerHexDigit (toString h) = true
    /\ startsWith (toString h) "0x" = false
    /\ parse (toString h) = Return h'
    /\ h' = h
    /\ equals h' (Some h) = true.
Proof.
  intros Hb. exists (mkHash b), (mkHash b).
  assert (valid (mkHash b)) as Hv by exact Hb.
  repeat split.
  - apply new_Hash_accepts, Hb.
  - apply toString_length, Hv.
  - apply encodeHex_lower.
  - apply hex_digits_not_prefixed, lower_is_hex, encodeHex_lower.
  - apply parse_toString, Hv.
  - apply equals_present; [exact Hv | exact Hv | reflexivity].
Qed.

Lemma round_trip_witness :
  exists h h',
    fromBytes lastByteOne = Return h
    /\ toString h = encodeHex lastByteOne
    /\ String.length (toString h) = 64%nat
    /\ allChars isLowerHexDigit (toString h) = true
    /\ startsWith (toString h) "0x" = false
    /\ parse (toString h) = Return h'
    /\ h' = h
    /\ equals h' (Some h) = true.
Proof. apply (round_trip lastByteOne). reflexivity. Defined.

(** C2. Length invariant of [fromBytes]: on a sequence of exactly 32 bytes
    it returns a Hash whose bytes are that sequence; on a sequence of any
    other length [n] it throws the constructor's error, whose message
    carries the expected length 32 and the actual length [n], and returns no
    Hash. *)
Theorem fromBytes_length_invariant (b : Uint8Array) :
  (List.length b = 32%nat ->
   exists h, fromBytes b = Return h /\ getBytes h = b)
  /\ (List.length b <> 32%nat ->
      fromBytes b
      = Throw (Error ("Hash validation failed: expected 32 bytes, but got "
                        ++ numberToString (List.length b) ++ "."))
      /\ returns (fromBytes b) = false).
Proof.
  split; intros H.
  - exists (mkHash b). split; [apply new_Hash_accepts, H | reflexivity].
  - unfold fromBytes. rewrite new_Hash_rejects by exact H.
    split; reflexivity.
Qed.

Lemma fromBytes_length_invariant_witness :
  (exists h, fromBytes lastByteOne = Return h /\ getBytes h = lastByteOne)
  /\ fromBytes (repeat x00 33)
     = Throw (Error "Hash validation failed: expected 32 bytes, but got 33.").
Proof.
  split.
  - apply (proj1 (fromBytes_length_invariant lastByteOne)). reflexivity.
  - apply (proj2 (fromBytes_length_invariant (repeat x00 33))).
    cbn. discriminate.
Defined.

(** C3, as the specification states it, fails: [parse] strips the lowercase
    prefix only, so a valid 64-digit string behind an uppercase [0X] is
    rejected. *)
Lemma upper_prefix_rejected :
  validHex ZEROS_64
  /\ ~ (exists h, parse ZEROS_64 = Return h
                  /\ parse ("0x" ++ ZEROS_64) = Return h
                  /\ parse ("0X" ++ ZEROS_64) = Return h).
Proof.
  split; [split; reflexivity |].
  intros [h [_ [_ H]]]. discriminate H.
Qed.

(** C3, amended. Hex prefix tolerance: for every valid 64-character hex
    string [s], [parse s] and [parse ("0x" ++ s)] both return, and return
    equal Hashes; the uppercase prefix [0X] is not stripped, and
    [parse ("0X" ++ s)] throws on its character [X]. *)
Theorem prefix_tolerance (s : string) :
  validHex s ->
  exists h,
    parse s = Return h
    /\ parse ("0x" ++ s) = Return h
    /\ equals h (Some h) = true
    /\ parse ("0X" ++ s) = Throw (TypeError "X").
Proof.
  intros Hs. destruct (parse_validHex s Hs) as [bs [Hd [Hl Hp]]].
  exists (mkHash bs). split; [| split; [| split]].
  - exact Hp.
  - unfold parse. rewrite cleanHex_lower_prefix, Hd. cbn [bind].
    apply new_Hash_accepts, Hl.
  - apply equals_present; [exact Hl | exact Hl | reflexivity].
  - unfold parse. rewrite cleanHex_upper_prefix. reflexivity.
Qed.

Lemma prefix_tolerance_witness :
  exists h,
    parse TEST_HEX_1 = Return h
    /\ parse ("0x" ++ TEST_HEX_1) = Return h
    /\ equals h (Some h) = true
    /\ parse ("0X" ++ TEST_HEX_1) = Throw (TypeError "X").
Proof. apply (prefix_tolerance TEST_HEX_1). split; reflexivity. Defined.

Lemma hash_inj a b : hash a = hash b -> a = b.
Proof. destruct a, b. cbn. intros ->. reflexivity. Qed.

Lemma octets_pointwise (x y : Uint8Array) :
  List.length x = LENGTH -> List.length y = LENGTH ->
  (x = y <-> forall i, (i < 32)%nat -> index x i = index y i).
Proof.
  intros Hx Hy. split; [intros ->; reflexivity |].
  intros H. apply nth_error_ext. intros i.
  destruct (Nat.lt_ge_cases i 32) as [Hi|Hi]; [apply H, Hi |].
  transitivity (@None byte); [| symmetry]; apply nth_error_None;
    rewrite ?Hx, ?Hy; exact Hi.
Qed.

(** C4. [compareTo] is the unsigned byte-wise lexicographic comparison
    starting at byte 0: it returns -1 if, at the first index where the two
    Hashes differ, this Hash's byte is numerically less than the other's, 1
    if it is greater, and 0 if all 32 bytes are equal.  The relation it
    induces is a total order (reflexive, antisymmetric, transitive, total;
    swapping the arguments negates the result) and agrees with [equals]:
    [equals a b] holds if and only if [compareTo a b] is 0. *)
Theorem compareTo_total_order (a b c : Hash) :
  valid a -> valid b -> valid c ->
  compareTo a b = lexicographic (hash a) (hash b)
  /\ (compareTo a b = -1 \/ compareTo a b = 0 \/ compareTo a b = 1)
  /\ (forall k x y,
        (k < 32)%nat ->
        (forall j, (j < k)%nat -> index (hash a) j = index (hash b) j) ->
        index (hash a) k = Some x -> index (hash b) k = Some y -> x <> y ->
        compareTo a b = if (Byte.to_N x <? Byte.to_N y)%N then -1 else 1)
  /\ ((forall i, (i < 32)%nat -> index (hash a) i = index (hash b) i) <->
      compareTo a b = 0)
  /\ (equals a (Some b) = true <-> compareTo a b = 0)
  /\ (compareTo a b = 0 <-> a = b)
  /\ compareTo a a = 0
  /\ compareTo b a = - compareTo a b
  /\ (precedes a b \/ precedes b a)
  /\ (precedes a b -> precedes b a -> a = b)
  /\ (precedes a b -> precedes b c -> precedes a c).
Proof.
  intros Ha Hb Hc. unfold precedes.
  rewrite !compareTo_lexicographic by assumption.
  assert (List.length (hash a) = List.length (hash b)) as Hab
    by (unfold valid in *; congruence).
  assert (List.length (hash b) = List.length (hash c)) as Hbc
    by (unfold valid in *; congruence).
  assert (lexicographic (hash a) (hash b) = 0 <-> a = b) as Hzero.
  { split.
    - intros H. apply hash_inj, lexicographic_zero; assumption.
    - intros ->. apply lexicographic_refl. }
  split; [reflexivity |].
  split; [apply lexicographic_range |].
  split; [intros k x y _; apply lexicographic_first_difference |].
  split.
  { rewrite <- octets_pointwise by assumption. rewrite Hzero.
    split; [apply hash_inj | intros ->; reflexivity]. }
  split.
  { rewrite equals_present by assumption. rewrite Hzero.
    split; [apply hash_inj | intros ->; reflexivity]. }
  split; [exact Hzero |].
  split; [apply lexicographic_refl |].
  split; [apply lexicographic_flip; exact Hab |].
  pose proof (lexicographic_flip (hash a) (hash b) Hab) as Hflip.
  split; [lia |].
  split.
  - intros H1 H2. apply Hzero. lia.
  - apply lexicographic_trans; assumption.
Qed.

Lemma compareTo_total_order_witness :
  compareTo hashOne hashTwo = -1
  /\ compareTo hashTwo hashOne = - compareTo hashOne hashTwo
  /\ (precedes hashZero hashOne -> precedes hashOne hashTwo ->
      precedes hashZero hashTwo).
Proof.
  pose proof (compareTo_total_order hashOne hashTwo hashZero
                eq_refl eq_refl eq_refl) as [H1 [_ [_ [_ [_ [_ [_ [H2 _]]]]]]]].
  pose proof (compareTo_total_order hashZero hashOne hashTwo
                eq_refl eq_refl eq_refl) as H3.
  split; [rewrite H1; reflexivity |].
  split; [exact H2 |].
  apply H3.
Defined.

(** C5. [equals] with an absent argument: for every Hash [a],
    [equals a null] returns false (the model of [equals] is a total
    function into the booleans: there is no path on which it throws); for a
    present Hash [b], [equals a b] returns true if and only if all 32 byte
    pairs of [a] and [b] are equal. *)
Theorem equals_absent_and_present (a b : Hash) :
  equals a None = false
  /\ (valid a -> valid b ->
      (equals a (Some b) = true <->
       forall i, (i < 32)%nat -> index (hash a) i = index (hash b) i)).
Proof.
  split; [reflexivity |]. intros Ha Hb.
  rewrite equals_present by assumption.
  apply octets_pointwise; assumption.
Qed.

Lemma equals_absent_and_present_witness :
  equals hashOne None = false
  /\ (equals hashOne (Some hashOne) = true <->
      forall i, (i < 32)%nat -> index (hash hashOne) i = index (hash hashOne) i)
  /\ equals hashOne (Some hashTwo) = false.
Proof.
  split; [apply (equals_absent_and_present hashOne hashOne) |].
  split; [| reflexivity].
  apply (proj2 (equals_absent_and_present hashOne hashOne)); reflexivity.
Defined.

Lemma decodeHex_throws_odd s :
  Nat.odd (String.length s) = true -> returns (decodeHex s) = false.
Proof.
  intros Ho. destruct (decodeHex s) as [bs|e] eqn:E; [| reflexivity].
  apply decodeHex_returns_inv in E as [_ E].
  rewrite E, Nat.odd_mul in Ho. discriminate Ho.
Qed.

Lemma decodeHex_throws_other s :
  allChars isHexDigit s = false -> returns (decodeHex s) = false.
Proof.
  intros Hc. destruct (decodeHex s) as [bs|e] eqn:E; [| reflexivity].
  apply decodeHex_returns_inv in E as [E _]. congruence.
Qed.

Lemma returns_bind_false {A B} (c : Completion A) (k : A -> Completion B) :
  returns c = false -> returns (bind c k) = false.
Proof. destruct c; [discriminate | reflexivity]. Qed.

Lemma startsWith_upper_inv s :
  startsWith s "0X" = true -> exists t, s = "0X" ++ t.
Proof.
  unfold startsWith. destruct s as [|c [|d t]]; cbn [prefix]; intros H.
  - discriminate H.
  - destruct (ascii_dec "0" c); discriminate H.
  - destruct (ascii_dec "0" c) as [<-|]; [| discriminate H].
    destruct (ascii_dec "X" d) as [<-|]; [| discriminate H].
    exists t. reflexivity.
Qed.

(** C6, as the specification states it, fails: the specification lets the
    optional prefix be [0x] or [0X], and behind an uppercase [0X] a string
    of 64 hex digits meets none of the three failure conditions, yet [parse]
    throws, because it removes the lowercase prefix only. *)
Lemma upper_prefix_not_cleaned :
  specClean ("0X" ++ ZEROS_64) = ZEROS_64
  /\ rejected (specClean ("0X" ++ ZEROS_64)) = false
  /\ returns (parse ("0X" ++ ZEROS_64)) = false
  /\ returns (parse ("0X" ++ ZEROS_64))
     <> negb (rejected (specClean ("0X" ++ ZEROS_64))).
Proof.
  split; [reflexivity |]. split; [reflexivity |]. split; [reflexivity |].
  discriminate.
Qed.

(** C6, amended. [parse] failure conditions, the optional prefix being the
    lowercase [0x] only: [parse] fails exactly when the string left after
    removing a leading [0x] contains a character that is not a hex digit,
    has odd length, or decodes to a number of bytes other than 32; in the
    last case it throws the constructor's error, whose message states the
    expected count of 32 (and the actual one); otherwise [parse] returns a
    Hash that holds the 32 decoded bytes.  An uppercase [0X] is not removed,
    so every string that starts with it fails. *)
Theorem parse_failure_conditions (s : string) :
  returns (parse s) = negb (rejected (cleanHex s))
  /\ (forall h, parse s = Return h ->
        decodeHex (cleanHex s) = Return (getBytes h)
        /\ List.length (getBytes h) = 32%nat)
  /\ (forall bs, decodeHex (cleanHex s) = Return bs ->
        List.length bs <> 32%nat ->
        parse s
        = Throw (Error ("Hash validation failed: expected 32 bytes, but got "
                          ++ numberToString (List.length bs) ++ ".")))
  /\ (startsWith s "0X" = true ->
      cleanHex s = s /\ returns (parse s) = false).
Proof.
  assert (returns (parse s) = negb (rejected (cleanHex s))) as Hexact.
  { unfold parse, rejected.
    destruct (allChars isHexDigit (cleanHex s)) eqn:Hc.
    2:{ rewrite returns_bind_false by (apply decodeHex_throws_other, Hc).
        reflexivity. }
    destruct (Nat.odd (String.length (cleanHex s))) eqn:Ho.
    { rewrite returns_bind_false by (apply decodeHex_throws_odd, Ho).
      reflexivity. }
    destruct (decodeHex_accepts (cleanHex s)) as [bs [Hd Hl]];
      [rewrite <- Nat.negb_odd, Ho; reflexivity | exact Hc |].
    rewrite Hd, Hl. cbn [bind negb orb].
    rewrite (Nat.mul_comm 2), Nat.div_mul by discriminate.
    unfold new_Hash, LENGTH.
    destruct (List.length bs =? 32)%nat; reflexivity. }
  split; [exact Hexact |]. unfold parse. split; [| split].
  - intros h H. apply bind_Return_inv in H as [bs [Hd Hn]].
    apply new_Hash_valid in Hn as [Hh Hv].
    unfold getBytes. rewrite Hh. split; [exact Hd | rewrite <- Hh; exact Hv].
  - intros bs Hd Hl. rewrite Hd. cbn [bind].
    apply new_Hash_rejects. exact Hl.
  - intros Hp. destruct (startsWith_upper_inv s Hp) as [t ->].
    split; [apply cleanHex_upper_prefix |].
    rewrite cleanHex_upper_prefix. reflexivity.
Qed.

Lemma parse_failure_conditions_witness :
  (decodeHex (cleanHex ("0x" ++ TEST_HEX_1)) = Return (getBytes hashOne)
   /\ List.length (getBytes hashOne) = 32%nat)
  /\ parse "1234"
     = Throw (Error "Hash validation failed: expected 32 bytes, but got 2.")
  /\ (cleanHex ("0X" ++ TEST_HEX_1) = "0X" ++ TEST_HEX_1
      /\ returns (parse ("0X" ++ TEST_HEX_1)) = false).
Proof.
  split; [| split].
  - apply (proj1 (proj2 (parse_failure_conditions ("0x" ++ TEST_HEX_1)))).
    reflexivity.
  - apply (proj1 (proj2 (proj2 (parse_failure_conditions "1234")))
             [x12; x34]).
    + reflexivity.
    + cbn. discriminate.
  - apply (proj2 (proj2 (proj2 (parse_failure_conditions
                                  ("0X" ++ TEST_HEX_1))))).
    reflexivity.
Defined.

(** C7. Constant-time equality: for every pair of Hashes [a], [b] with [b]
    present, [equals a b] examines every one of the 32 byte pairs whatever
    the earlier pairs were: what a run lets an observer of branches and of
    array indices see is the fixed sequence [fullScan], the same for every
    pair of arguments; and the result is whether the bitwise OR of the
    per-byte XORs, accumulated over all 32 indices, is zero. *)
Theorem equals_constant_time (a b : Hash) :
  snd (equals_run a (Some b)) = fullScan
  /\ (forall a' b', snd (equals_run a' (Some b')) = snd (equals_run a (Some b)))
  /\ equals a (Some b) = (accumulate (hash a) (hash b) (seq 0 32) =? 0).
Proof.
  assert (forall x y, snd (equals_run x (Some y)) = fullScan) as Hleak.
  { intros x y. unfold equals_run.
    pose proof (equals_loop_leak (S LENGTH) 0 0 (hash x) (hash y)) as L.
    destruct (equals_loop (S LENGTH) 0 0 (hash x) (hash y)) as [diff t].
    cbn [snd] in *. rewrite L by lia. reflexivity. }
  split; [apply Hleak |].
  split; [intros a' b'; rewrite !Hleak; reflexivity |].
  unfold equals, equals_run, accumulate.
  pose proof (equals_loop_result (S LENGTH) 0 0 (hash a) (hash b)) as R.
  destruct (equals_loop (S LENGTH) 0 0 (hash a) (hash b)) as [diff t].
  cbn [fst] in *. rewrite R by lia. reflexivity.
Qed.

(** The same observer tells two runs of [compareTo] apart: its loop stops
    at the first difference. *)
Example compareTo_early_exit :
  snd (compareTo_run hashZero hashOne)
  <> snd (compareTo_run hashOne (mkHash (x01 :: repeat x00 31))).
Proof. cbv. discriminate. Qed.

(** C8. Structured serialization: for every Hash [h], [toJSON h] is exactly
    the string [toString h]; for a Hash of 32 bytes that string is plain
    text of 64 lowercase hexadecimal digits. *)
Theorem toJSON_is_toString (h : Hash) :
  toJSON h = toString h
  /\ (valid h ->
      String.length (toJSON h) = 64%nat
      /\ allChars isLowerHexDigit (toJSON h) = true).
Proof.
  split; [reflexivity |]. intros Hv. unfold toJSON.
  split; [apply toString_length, Hv | apply encodeHex_lower].
Qed.

Lemma toJSON_is_toString_witness :
  toJSON hashOne = TEST_HEX_1
  /\ String.length (toJSON hashOne) = 64%nat
  /\ allChars isLowerHexDigit (toJSON hashOne) = true.
Proof.
  split; [reflexivity |].
  apply (proj2 (toJSON_is_toString hashOne)). reflexivity.
Defined.

(** C9. [toShortString] format: for every Hash [h] (of 32 bytes),
    [toShortString h] is the first 6 characters of [toString h], then three
    literal dots, then the last 6 characters of [toString h], 15 characters
    in all; the Hash whose bytes are all zero except a final byte of 1 gives
    ["000000...000001"]. *)
Theorem toShortString_format (h : Hash) :
  valid h ->
  toShortString h
  = String.substring 0 6 (toString h) ++ "..."
      ++ String.substring 58 6 (toString h)
  /\ String.length (String.substring 0 6 (toString h)) = 6%nat
  /\ String.length (String.substring 58 6 (toString h)) = 6%nat
  /\ String.length (toShortString h) = 15%nat
  /\ bind (fromBytes lastByteOne) (fun one => Return (toShortString one))
     = Return "000000...000001".
Proof.
  intros Hv. pose proof (toString_length h Hv) as Hl.
  assert (toShortString h
          = String.substring 0 6 (toString h) ++ "..."
              ++ String.substring 58 6 (toString h)) as E.
  { unfold toShortString. cbv zeta.
    rewrite substring_clamped by (rewrite ?Hl; lia).
    rewrite substring_to_end by (rewrite ?Hl; lia).
    rewrite Hl. reflexivity. }
  assert (String.length (String.substring 0 6 (toString h)) = 6%nat) as L1
    by (apply substring_length; rewrite Hl; lia).
  assert (String.length (String.substring 58 6 (toString h)) = 6%nat) as L2
    by (apply substring_length; rewrite Hl; lia).
  split; [exact E |]. split; [exact L1 |]. split; [exact L2 |].
  split; [| reflexivity].
  rewrite E, !string_length_app, L1, L2. reflexivity.
Qed.

Lemma toShortString_format_witness :
  toShortString hashOne
  = String.substring 0 6 (toString hashOne) ++ "..."
      ++ String.substring 58 6 (toString hashOne)
  /\ String.length (String.substring 0 6 (toString hashOne)) = 6%nat
  /\ String.length (String.substring 58 6 (toString hashOne)) = 6%nat
  /\ String.length (toShortString hashOne) = 15%nat
  /\ bind (fromBytes lastByteOne) (fun one => Return (toShortString one))
     = Return "000000...000001".
Proof. apply (toShortString_format hashOne). reflexivity. Defined.

(** C10. The 32-byte invariant on the digest path: [digest] passes the
    buffer of the hashing primitive through the constructor's length check,
    so a buffer whose length is not 32 makes [digest] throw the
    length-validation error instead of returning a Hash, a buffer of 32
    bytes becomes the Hash, and a failure of the primitive is passed on; as
    [fromBytes] and [parse] go through the same check, every Hash that a
    factory returns has exactly 32 bytes. *)
Theorem digest_length_invariant
  (subtle_digest : Uint8Array -> Completion Uint8Array) (data : Uint8Array) :
  (forall buffer,
     subtle_digest data = Return buffer -> List.length buffer <> 32%nat ->
     digest subtle_digest data
     = Throw (Error (validationMessage (List.length buffer)))
     /\ returns (digest subtle_digest data) = false)
  /\ (forall buffer,
        subtle_digest data = Return buffer -> List.length buffer = 32%nat ->
        digest subtle_digest data = Return (mkHash buffer))
  /\ (forall e,
        subtle_digest data = Throw e -> digest subtle_digest data = Throw e)
  /\ (forall h,
        Constructed subtle_digest h -> List.length (getBytes h) = 32%nat).
Proof.
  unfold digest. split; [| split; [| split]].
  - intros buffer -> Hl. cbn [bind].
    rewrite new_Hash_rejects by exact Hl. split; reflexivity.
  - intros buffer -> Hl. cbn [bind]. apply new_Hash_accepts, Hl.
  - intros e ->. reflexivity.
  - intros h [bytes h' H | hex h' H | data' h' H].
    + apply new_Hash_valid in H as [_ H]. exact H.
    + apply bind_Return_inv in H as [bs [_ H]].
      apply new_Hash_valid in H as [_ H]. exact H.
    + apply bind_Return_inv in H as [bs [_ H]].
      apply new_Hash_valid in H as [_ H]. exact H.
Qed.

(** A primitive that hands its input back, on an input of 31 bytes and on
    one of 32. *)
Lemma digest_length_invariant_witness :
  digest (fun data => Return data) (repeat x00 31)
  = Throw (Error "Hash validation failed: expected 32 bytes, but got 31.")
  /\ digest (fun data => Return data) lastByteOne = Return hashOne
  /\ List.length (getBytes hashOne) = 32%nat.
Proof.
  split; [| split].
  - apply (proj1 (digest_length_invariant (fun data => Return data)
                    (repeat x00 31))
             (repeat x00 31) eq_refl).
    cbn. discriminate.
  - apply (proj1 (proj2 (digest_length_invariant (fun data => Return data)
                           lastByteOne))
             lastByteOne eq_refl eq_refl).
  - apply (proj2 (proj2 (proj2 (digest_length_invariant
                                  (fun data => Return data) lastByteOne)))).
    apply (by_digest _ lastByteOne). reflexivity.
Defined.

(* ================================================================== *)
(** * The store of arrays *)
(* ================================================================== *)

Lemma replace_length {A} (l : list A) : forall i v,
  List.length (Heap.replace l i v) = List.length l.
Proof.
  induction l as [|x l IH]; intros [|i] v; cbn [Heap.replace List.length];
    try reflexivity.
  rewrite IH. reflexivity.
Qed.

Lemma replace_same {A} (l : list A) : forall i v,
  (i < List.length l)%nat -> nth_error (Heap.replace l i v) i = Some v.
Proof.
  induction l as [|x l IH]; intros [|i] v H; cbn [List.length] in H;
    cbn [Heap.replace nth_error]; try lia; [reflexivity |].
  apply IH. lia.
Qed.

Lemma replace_other {A} (l : list A) : forall i j v,
  i <> j -> nth_error (Heap.replace l i v) j = nth_error l j.
Proof.
  induction l as [|x l IH]; intros [|i] [|j] v H;
    cbn [Heap.replace nth_error]; try reflexivity; try contradiction.
  apply IH. congruence.
Qed.

Lemma deref_beyond st : Heap.deref st (List.length st) = None.
Proof. apply nth_error_None. lia. Qed.

Lemma deref_allocated st r content :
  Heap.deref st r = Some content -> (r < List.length st)%nat.
Proof. intros H. apply nth_error_Some. unfold Heap.deref in H. congruence. Qed.

Lemma alloc_new st content :
  Heap.deref (snd (Heap.alloc st content)) (fst (Heap.alloc st content))
  = Some content.
Proof.
  unfold Heap.alloc, Heap.deref. cbn [fst snd].
  rewrite nth_error_app2, Nat.sub_diag by lia. reflexivity.
Qed.

Lemma alloc_old st content r :
  (r < List.length st)%nat ->
  Heap.deref (snd (Heap.alloc st content)) r = Heap.deref st r.
Proof.
  intros H. unfold Heap.alloc, Heap.deref. cbn [snd].
  apply nth_error_app1. exact H.
Qed.

Lemma assign_length st r i v :
  List.length (Heap.assign st r i v) = List.length st.
Proof.
  unfold Heap.assign. destruct (Heap.deref st r); [apply replace_length | reflexivity].
Qed.

Lemma assign_other st r i v r' :
  r <> r' -> Heap.deref (Heap.assign st r i v) r' = Heap.deref st r'.
Proof.
  intros H. unfold Heap.assign.
  destruct (Heap.deref st r); [| reflexivity].
  apply replace_other. exact H.
Qed.

Lemma assign_same st r i v content :
  Heap.deref st r = Some content ->
  Heap.deref (Heap.assign st r i v) r
  = Some (Heap.replace content i (toUint8 v)).
Proof.
  intros H. unfold Heap.assign. rewrite H.
  apply replace_same. eapply deref_allocated, H.
Qed.

(** Writes through other references leave an array as it is. *)
Lemma writes_frame ws : forall st r,
  Forall (fun w => fst (fst w) <> r) ws ->
  Heap.deref (Heap.writes st ws) r = Heap.deref st r
  /\ List.length (Heap.writes st ws) = List.length st.
Proof.
  unfold Heap.writes.
  induction ws as [|w ws IH]; intros st r H; cbn [fold_left].
  - split; reflexivity.
  - inversion H as [|? ? Hw Hws]; subst.
    destruct (IH (Heap.assign st (fst (fst w)) (snd (fst w)) (snd w)) r Hws)
      as [E L].
    rewrite E, L, assign_length, assign_other by exact Hw.
    split; reflexivity.
Qed.

Lemma getBytes_allocates st h content :
  Heap.deref st (Heap.buffer h) = Some content ->
  Heap.getBytes st h = Some (List.length st, (st ++ [content])%list).
Proof. intros H. unfold Heap.getBytes. rewrite H. reflexivity. Qed.

(** X1. Copy on construction: when [fromBytes] returns an instance for an
    array of the store, the content it was given is 32 bytes, which the
    value-level [fromBytes] accepts too; the private buffer is an array that
    did not exist before the call; and after any sequence of writes to
    arrays that did exist before the call, the argument included, the buffer
    still holds that content and [getBytes] returns an array holding it. *)
Theorem construction_copies (st st1 : Heap.Store) (bytes : Heap.Ref)
  (content : Uint8Array) (h : Heap.HashObject) :
  Heap.deref st bytes = Some content ->
  Heap.fromBytes st bytes = Some (Return h, st1) ->
  fromBytes content = Return (mkHash content)
  /\ Heap.deref st (Heap.buffer h) = None
  /\ Heap.deref st1 (Heap.buffer h) = Some content
  /\ (forall r, (r < List.length st)%nat -> Heap.deref st1 r = Heap.deref st r)
  /\ (forall ws,
        Forall (fun w => (fst (fst w) < List.length st)%nat) ws ->
        Heap.deref (Heap.writes st1 ws) (Heap.buffer h) = Some content
        /\ exists out st2,
             Heap.getBytes (Heap.writes st1 ws) h = Some (out, st2)
             /\ Heap.deref st2 out = Some content).
Proof.
  intros Hc H. unfold Heap.fromBytes, Heap.new_Hash in H. rewrite Hc in H.
  destruct (Nat.eqb_spec (List.length content) LENGTH) as [Hl|]; cbn [negb] in H;
    [| discriminate H].
  injection H as <- <-. cbn [Heap.buffer].
  split; [apply new_Hash_accepts, Hl |].
  split; [apply deref_beyond |].
  pose proof (alloc_new st content) as Hnew. cbn [Heap.alloc fst snd] in Hnew.
  split; [exact Hnew |].
  split; [intros r Hr; apply (alloc_old st content r Hr) |].
  intros ws Hws.
  assert (Forall (fun w : nat * nat * N => fst (fst w) <> List.length st) ws)
    as Hne by (eapply Forall_impl; [| exact Hws]; cbn; intros; lia).
  destruct (writes_frame ws (st ++ [content])%list (List.length st) Hne)
    as [E L].
  rewrite Hnew in E. split; [exact E |].
  eexists _, _. split.
  - apply (getBytes_allocates _ (Heap.mkObject (List.length st)) content E).
  - apply (alloc_new (Heap.writes (st ++ [content])%list ws) content).
Qed.

Lemma construction_copies_witness :
  fromBytes lastByteOne = Return (mkHash lastByteOne)
  /\ Heap.deref
       (Heap.writes [lastByteOne; lastByteOne] [(0%nat, 31%nat, 7%N)])
       1%nat
     = Some lastByteOne.
Proof.
  pose proof (construction_copies [lastByteOne] [lastByteOne; lastByteOne]
                0%nat lastByteOne (Heap.mkObject 1%nat) eq_refl eq_refl)
    as [H1 [_ [_ [_ H2]]]].
  split; [exact H1 |].
  apply (H2 [(0%nat, 31%nat, 7%N)]).
  repeat constructor.
Defined.

(** X2. Copy on retrieval: [getBytes] on an instance whose buffer holds
    [content] returns an array that did not exist before, distinct from the
    buffer, holding [content], and leaves the existing arrays as they were;
    a write to the returned array changes that array only: the buffer keeps
    [content], and a second [getBytes] returns yet another array, holding
    [content]. *)
Theorem retrieval_copies (st : Heap.Store) (h : Heap.HashObject)
  (content : Uint8Array) :
  Heap.deref st (Heap.buffer h) = Some content ->
  exists c1 st1,
    Heap.getBytes st h = Some (c1, st1)
    /\ Heap.deref st c1 = None
    /\ c1 <> Heap.buffer h
    /\ Heap.deref st1 c1 = Some content
    /\ (forall r, (r < List.length st)%nat -> Heap.deref st1 r = Heap.deref st r)
    /\ (forall i v,
          Heap.deref (Heap.assign st1 c1 i v) (Heap.buffer h) = Some content
          /\ exists c2 st2,
               Heap.getBytes (Heap.assign st1 c1 i v) h = Some (c2, st2)
               /\ c2 <> c1
               /\ Heap.deref st2 c2 = Some content
               /\ Heap.deref st2 c1
                  = Some (Heap.replace content i (toUint8 v))).
Proof.
  intros Hc. pose proof (deref_allocated _ _ _ Hc) as Hb.
  exists (List.length st), (st ++ [content])%list.
  pose proof (alloc_new st content) as Hnew. cbn [Heap.alloc fst snd] in Hnew.
  assert (forall r, (r < List.length st)%nat ->
                    Heap.deref (st ++ [content])%list r = Heap.deref st r)
    as Hold by (intros r Hr; apply (alloc_old st content r Hr)).
  split; [apply getBytes_allocates, Hc |].
  split; [apply deref_beyond |].
  split; [lia |].
  split; [exact Hnew |].
  split; [exact Hold |].
  intros i v.
  set (st' := Heap.assign (st ++ [content])%list (List.length st) i v).
  assert (Heap.deref st' (Heap.buffer h) = Some content) as Hkeep.
  { unfold st'. rewrite assign_other by lia. rewrite Hold by exact Hb. exact Hc. }
  assert (List.length st' = S (List.length st)) as Hlen.
  { unfold st'. rewrite assign_length, length_app. cbn [List.length]. lia. }
  split; [exact Hkeep |].
  exists (List.length st'), (st' ++ [content])%list.
  split; [apply getBytes_allocates, Hkeep |].
  split; [lia |].
  split; [apply (alloc_new st' content) |].
  transitivity (Heap.deref st' (List.length st));
    [apply (alloc_old st' content (List.length st)); lia |].
  unfold st'. apply assign_same. exact Hnew.
Qed.

Lemma retrieval_copies_witness :
  exists c1 st1,
    Heap.getBytes [lastByteOne] (Heap.mkObject 0%nat) = Some (c1, st1)
    /\ Heap.deref [lastByteOne] c1 = None
    /\ c1 <> 0%nat
    /\ Heap.deref st1 c1 = Some lastByteOne
    /\ (forall r, (r < 1)%nat -> Heap.deref st1 r = Heap.deref [lastByteOne] r)
    /\ (forall i v,
          Heap.deref (Heap.assign st1 c1 i v) 0%nat = Some lastByteOne
          /\ exists c2 st2,
               Heap.getBytes (Heap.assign st1 c1 i v) (Heap.mkObject 0%nat)
               = Some (c2, st2)
               /\ c2 <> c1
               /\ Heap.deref st2 c2 = Some lastByteOne
               /\ Heap.deref st2 c1
                  = Some (Heap.replace lastByteOne i (toUint8 v))).
Proof.
  apply (retrieval_copies [lastByteOne] (Heap.mkObject 0%nat) lastByteOne).
  reflexivity.
Defined.

(* ================================================================== *)
(** * Text and bytes *)
(* ================================================================== *)

Lemma encodeHex_inj x y : encodeHex x = encodeHex y -> x = y.
Proof.
  intros E.
  assert (decodeHex (encodeHex x) = decodeHex (encodeHex y)) as H
    by (rewrite E; reflexivity).
  rewrite !decodeHex_encodeHex in H. injection H as H. exact H.
Qed.

Lemma constructed_valid sd h : Constructed sd h -> valid h.
Proof.
  intros [bytes h' H | hex h' H | data h' H].
  - apply new_Hash_valid in H as [_ H]. exact H.
  - apply bind_Return_inv in H as [bs [_ H]].
    apply new_Hash_valid in H as [_ H]. exact H.
  - apply bind_Return_inv in H as [bs [_ H]].
    apply new_Hash_valid in H as [_ H]. exact H.
Qed.

Lemma startsWith_inv s :
  startsWith s "0x" = true -> s = "0x" ++ slice s 2.
Proof.
  unfold startsWith. destruct s as [|c [|d s]]; cbn [prefix]; intros H.
  - discriminate H.
  - destruct (ascii_dec "0" c); discriminate H.
  - destruct (ascii_dec "0" c) as [<-|]; [| discriminate H].
    destruct (ascii_dec "x" d) as [<-|]; [| discriminate H].
    destruct s; reflexivity.
Qed.

Lemma fromHexChar_throws c e :
  fromHexChar c = Throw e -> e = TypeError c /\ isHexDigit c = false.
Proof.
  intros H. split.
  - unfold fromHexChar in H.
    destruct ((48 <=? N_of_ascii c) && (N_of_ascii c <=? 57))%N; [discriminate |].
    destruct ((97 <=? N_of_ascii c) && (N_of_ascii c <=? 102))%N; [discriminate |].
    destruct ((65 <=? N_of_ascii c) && (N_of_ascii c <=? 70))%N; [discriminate |].
    injection H as <-. reflexivity.
  - rewrite <- fromHexChar_returns, H. reflexivity.
Qed.

(** What [decodeHex] throws: a [TypeError] for a character of the input that
    is no hex digit, or a [RangeError] on an input of odd length. *)
Lemma decodeHex_throws s : forall e,
  decodeHex s = Throw e ->
  (exists c, e = TypeError c /\ isHexDigit c = false /\ occurs c s)
  \/ (e = RangeError /\ Nat.odd (String.length s) = true).
Proof.
  unfold occurs.
  induction s as [| c | c d s IH] using string_pair_ind; intros e H.
  - discriminate H.
  - cbn [decodeHex] in H. destruct (fromHexChar c) as [a|e'] eqn:Ec.
    + injection H as <-. right. split; reflexivity.
    + injection H as <-. apply fromHexChar_throws in Ec as [-> Hc].
      left. exists c. repeat split; [exact Hc | left; reflexivity].
  - cbn [decodeHex] in H. destruct (fromHexChar c) as [a|e'] eqn:Ec.
    2:{ injection H as <-. apply fromHexChar_throws in Ec as [-> Hc].
        left. exists c. repeat split; [exact Hc | left; reflexivity]. }
    cbn [bind] in H. destruct (fromHexChar d) as [b|e'] eqn:Ed.
    2:{ injection H as <-. apply fromHexChar_throws in Ed as [-> Hd].
        left. exists d. repeat split; [exact Hd | right; left; reflexivity]. }
    cbn [bind] in H. destruct (decodeHex s) as [dst|e'] eqn:Es;
      [discriminate H |].
    injection H as <-.
    destruct (IH e' eq_refl) as [[x [-> [Hx Hin]]] | [-> Ho]].
    + left. exists x. repeat split; [exact Hx | right; right; exact Hin].
    + right. split; [reflexivity | exact Ho].
Qed.

Lemma lexicographic_zeros n : forall y, lexicographic (repeat x00 n) y <= 0.
Proof.
  induction n as [|n IH]; intros [|b y]; cbn [repeat lexicographic]; try lia.
  change (Byte.to_N x00) with 0%N.
  destruct (N.eqb_spec 0 (Byte.to_N b)); [apply IH |].
  destruct (N.ltb_spec 0 (Byte.to_N b)); lia.
Qed.

(** X3. Every Hash that a factory returned can be rebuilt from what it
    gives out: [fromBytes] on its bytes, [parse] on its text and [parse] on
    its text behind [0x] all return that same Hash. *)
Theorem rebuilt_from_output
  (subtle_digest : Uint8Array -> Completion Uint8Array) (h : Hash) :
  Constructed subtle_digest h ->
  fromBytes (getBytes h) = Return h
  /\ parse (toString h) = Return h
  /\ parse ("0x" ++ toString h) = Return h
  /\ parse (toJSON h) = Return h.
Proof.
  intros Hc. apply constructed_valid in Hc.
  assert (parse (toString h) = Return h) as Hp by (apply parse_toString, Hc).
  split; [| split; [exact Hp | split; [| exact Hp]]].
  - unfold fromBytes, getBytes. rewrite new_Hash_accepts by exact Hc.
    destruct h; reflexivity.
  - unfold parse in *. rewrite cleanHex_lower_prefix.
    unfold cleanHex in Hp.
    rewrite hex_digits_not_prefixed in Hp
      by (apply lower_is_hex, encodeHex_lower).
    exact Hp.
Qed.

Lemma rebuilt_from_output_witness :
  fromBytes (getBytes hashOne) = Return hashOne
  /\ parse (toString hashOne) = Return hashOne
  /\ parse ("0x" ++ toString hashOne) = Return hashOne
  /\ parse (toJSON hashOne) = Return hashOne.
Proof.
  apply (rebuilt_from_output (fun data => Return data) hashOne).
  apply (by_parse _ TEST_HEX_1). reflexivity.
Defined.

(** X4. The text identifies the Hash: two Hashes with the same [toString]
    are the same; on Hashes of 32 bytes [equals] returns true exactly when
    the texts are equal, and it is symmetric. *)
Theorem text_identifies (a b : Hash) :
  (toString a = toString b -> a = b)
  /\ (valid a -> valid b ->
      (equals a (Some b) = true <-> toString a = toString b)
      /\ equals a (Some b) = equals b (Some a)).
Proof.
  split.
  - intros E. apply hash_inj, encodeHex_inj, E.
  - intros Ha Hb. split.
    + rewrite equals_present by assumption. unfold toString. split.
      * intros ->. reflexivity.
      * apply encodeHex_inj.
    + apply eq_true_iff_eq. rewrite !equals_present by assumption.
      split; intros E; symmetry; exact E.
Qed.

Lemma text_identifies_witness :
  (equals hashOne (Some hashTwo) = true <-> toString hashOne = toString hashTwo)
  /\ equals hashOne (Some hashTwo) = equals hashTwo (Some hashOne).
Proof.
  apply (proj2 (text_identifies hashOne hashTwo)); reflexivity.
Defined.

(** X5. The prefix is stripped once: for every string [s], [parse] of
    [0x] followed by [s] behaves as [parse s] (same Hash or same error) when
    [s] does not itself start with [0x]; when it does, [parse] fails, and on
    an [s] of even length the error is the decoder's, for the character [x]
    left in second place.  (On an odd length the decoder has two faults to
    report, and which one it reports is its own choice.) *)
Theorem prefix_stripped_once (s : string) :
  (startsWith s "0x" = false -> parse ("0x" ++ s) = parse s)
  /\ (startsWith s "0x" = true ->
      returns (parse ("0x" ++ s)) = false
      /\ (Nat.even (String.length s) = true ->
          parse ("0x" ++ s) = Throw (TypeError "x"))).
Proof.
  unfold parse. rewrite cleanHex_lower_prefix. split; intros H.
  - unfold cleanHex. rewrite H. reflexivity.
  - rewrite (startsWith_inv s H). split; [reflexivity |].
    intros _. reflexivity.
Qed.

Lemma prefix_stripped_once_witness :
  parse ("0x" ++ TEST_HEX_1) = parse TEST_HEX_1
  /\ returns (parse ("0x" ++ "0x" ++ TEST_HEX_1)) = false
  /\ parse ("0x" ++ "0x" ++ TEST_HEX_1) = Throw (TypeError "x").
Proof.
  split; [| split].
  - apply (proj1 (prefix_stripped_once TEST_HEX_1)). reflexivity.
  - apply (proj2 (prefix_stripped_once ("0x" ++ TEST_HEX_1))). reflexivity.
  - apply (proj2 (prefix_stripped_once ("0x" ++ TEST_HEX_1)));
      reflexivity.
Defined.

(** X6. The length of what [parse] accepts: when [parse s] returns, [s] is
    64 characters without the prefix [0x], or 66 characters with it. *)
Theorem parse_accepted_length (s : string) (h : Hash) :
  parse s = Return h ->
  (startsWith s "0x" = false /\ String.length s = 64%nat)
  \/ (startsWith s "0x" = true /\ String.length s = 66%nat).
Proof.
  intros H. apply bind_Return_inv in H as [bs [Hd Hn]].
  apply new_Hash_valid in Hn as [Hh Hv]. unfold valid in Hv.
  rewrite Hh in Hv. apply decodeHex_returns_inv in Hd as [_ Hl].
  rewrite Hv in Hl. unfold cleanHex in Hl.
  destruct (startsWith s "0x") eqn:Hp; [right | left];
    (split; [reflexivity |]); [| exact Hl].
  rewrite (startsWith_inv s Hp). cbn [append String.length].
  rewrite Hl. reflexivity.
Qed.

Lemma parse_accepted_length_witness :
  (startsWith ("0x" ++ TEST_HEX_1) "0x" = false
   /\ String.length ("0x" ++ TEST_HEX_1) = 64%nat)
  \/ (startsWith ("0x" ++ TEST_HEX_1) "0x" = true
      /\ String.length ("0x" ++ TEST_HEX_1) = 66%nat).
Proof.
  apply (parse_accepted_length ("0x" ++ TEST_HEX_1) hashOne). reflexivity.
Defined.

(** X7. What [parse] throws: the constructor's [Error] only for a string
    that decodes, to a number of bytes other than 32 which the message
    states; a [TypeError] only for a character of the cleaned string that is
    not a hex digit; a [RangeError] only when the cleaned string has odd
    length; nothing else. *)
Theorem parse_error_kinds (s : string) (e : Exception) :
  parse s = Throw e ->
  match e with
  | Error message =>
      exists bs, decodeHex (cleanHex s) = Return bs
                 /\ List.length bs <> 32%nat
                 /\ String.length (cleanHex s) = (2 * List.length bs)%nat
                 /\ message = validationMessage (List.length bs)
  | TypeError c => isHexDigit c = false /\ occurs c (cleanHex s)
  | RangeError => Nat.odd (String.length (cleanHex s)) = true
  | Rejected _ => False
  end.
Proof.
  unfold parse. intros H.
  destruct (decodeHex (cleanHex s)) as [bs|e'] eqn:Hd; cbn [bind] in H.
  - unfold new_Hash in H.
    destruct (Nat.eqb_spec (List.length bs) LENGTH) as [|Hl]; cbn [negb] in H;
      [discriminate H |].
    injection H as <-. exists bs.
    apply decodeHex_returns_inv in Hd as [_ Hlen].
    repeat split; [exact Hl | exact Hlen].
  - injection H as <-.
    destruct (decodeHex_throws _ _ Hd) as [[c [-> [Hc Hin]]] | [-> Ho]].
    + split; assumption.
    + exact Ho.
Qed.

Lemma parse_error_kinds_witness :
  exists bs, decodeHex (cleanHex "1234") = Return bs
             /\ List.length bs <> 32%nat
             /\ String.length (cleanHex "1234") = (2 * List.length bs)%nat
             /\ "Hash validation failed: expected 32 bytes, but got 2."
                = validationMessage (List.length bs).
Proof.
  apply (parse_error_kinds "1234"
           (Error "Hash validation failed: expected 32 bytes, but got 2.")).
  reflexivity.
Defined.

(** X8. [emptyHash] is the all-zero Hash and the least one: it is built
    without error, its 32 bytes are zero, [compareTo] puts it before or
    level with every Hash of 32 bytes, and level only with itself. *)
Theorem emptyHash_least :
  exists e,
    emptyHash = Return e
    /\ getBytes e = repeat x00 32
    /\ toString e = ZEROS_64
    /\ forall h, valid h ->
         compareTo e h <= 0
         /\ 0 <= compareTo h e
         /\ (compareTo e h = 0 -> h = e).
Proof.
  exists hashZero. split; [reflexivity |]. split; [reflexivity |].
  split; [reflexivity |]. intros h Hv.
  assert (valid hashZero) as Hz by reflexivity.
  rewrite !compareTo_lexicographic by assumption.
  assert (List.length (hash hashZero) = List.length (hash h)) as Hl
    by (unfold valid in *; congruence).
  pose proof (lexicographic_zeros 32 (hash h)) as Hle.
  pose proof (lexicographic_flip (hash hashZero) (hash h) Hl) as Hflip.
  change (hash hashZero) with (repeat x00 32) in *.
  split; [exact Hle |]. split; [lia |].
  intros H0. symmetry. apply hash_inj, lexicographic_zero; assumption.
Qed.

Lemma emptyHash_least_witness :
  exists e,
    emptyHash = Return e
    /\ compareTo e hashOne <= 0
    /\ 0 <= compareTo hashOne e
    /\ (compareTo e hashOne = 0 -> hashOne = e).
Proof.
  destruct emptyHash_least as [e [He [_ [_ H]]]].
  exists e. split; [exact He |]. apply (H hashOne). reflexivity.
Defined.

(* ================================================================== *)
(** * Digits, case and order *)
(* ================================================================== *)

Lemma in_allNibbles a : (a < 16)%N -> In a allNibbles.
Proof.
  intros H. unfold allNibbles. apply in_map_iff.
  exists (N.to_nat a). split; [apply N2Nat.id |].
  apply in_seq. lia.
Qed.

Lemma in_allOctets b : In b allOctets.
Proof.
  unfold allOctets. apply in_map_iff. exists (N.to_nat (Byte.to_N b)).
  pose proof (Byte.to_N_bounded b) as Hb. split.
  - rewrite N2Nat.id. unfold toUint8.
    rewrite N.mod_small by lia. rewrite Byte.of_to_N. reflexivity.
  - apply in_seq. lia.
Qed.

Lemma in_allChars256 c : In c allChars256.
Proof.
  unfold allChars256. apply in_map_iff. exists (N.to_nat (N_of_ascii c)).
  pose proof (N_ascii_bounded c) as Hb. split.
  - rewrite N2Nat.id. apply ascii_N_embedding.
  - apply in_seq. lia.
Qed.

(** A digit that [fromHexChar] accepts has a value below 16, and the table
    of the encoder gives back its lowercase form. *)
Lemma fromHexChar_value c a :
  fromHexChar c = Return a -> (a < 16)%N /\ hexDigit a = lowercase c.
Proof.
  assert (forallb
            (fun c => match fromHexChar c with
                      | Return a =>
                          (a <? 16)%N && Ascii.eqb (hexDigit a) (lowercase c)
                      | Throw _ => true
                      end) allChars256 = true) as H by (vm_compute; reflexivity).
  rewrite forallb_forall in H. specialize (H c (in_allChars256 c)).
  intros E. rewrite E in H. apply andb_true_iff in H as [H1 H2].
  split; [apply N.ltb_lt, H1 | apply Ascii.eqb_eq, H2].
Qed.

(** Two digit values make an octet whose halves they are. *)
Lemma octet_of_nibbles a b :
  (a < 16)%N -> (b < 16)%N ->
  N.shiftr (Byte.to_N (toUint8 (N.lor (N.shiftl a 4) b))) 4 = a
  /\ N.land (Byte.to_N (toUint8 (N.lor (N.shiftl a 4) b))) 15 = b.
Proof.
  assert (forallb
            (fun a =>
               forallb
                 (fun b =>
                    let v := Byte.to_N (toUint8 (N.lor (N.shiftl a 4) b)) in
                    (N.shiftr v 4 =? a)%N && (N.land v 15 =? b)%N)
                 allNibbles) allNibbles = true) as H
    by (vm_compute; reflexivity).
  intros Ha Hb. rewrite forallb_forall in H.
  specialize (H a (in_allNibbles a Ha)). rewrite forallb_forall in H.
  specialize (H b (in_allNibbles b Hb)). cbv zeta in H.
  apply andb_true_iff in H as [H1 H2].
  split; [apply N.eqb_eq, H1 | apply N.eqb_eq, H2].
Qed.

(** Decoding then encoding gives the text back in lowercase. *)
Lemma encodeHex_decodeHex s : forall bs,
  decodeHex s = Return bs -> encodeHex bs = lowercaseString s.
Proof.
  induction s as [| c | c d s IH] using string_pair_ind; intros bs H.
  - injection H as <-. reflexivity.
  - cbn [decodeHex] in H. destruct (fromHexChar c); discriminate H.
  - cbn [decodeHex] in H.
    apply bind_Return_inv in H as [a [Ha H]].
    apply bind_Return_inv in H as [b [Hb H]].
    apply bind_Return_inv in H as [dst [Hd H]].
    injection H as <-.
    apply fromHexChar_value in Ha as [Ha Hc].
    apply fromHexChar_value in Hb as [Hb Hd'].
    destruct (octet_of_nibbles a b Ha Hb) as [E1 E2].
    cbn [encodeHex lowercaseString]. rewrite E1, E2, Hc, Hd', (IH dst Hd).
    reflexivity.
Qed.

(** The two digits of an octet compare as the octet does. *)
Lemma digits_compare a b :
  sign match Ascii.compare (hexDigit (N.shiftr (Byte.to_N a) 4))
               (hexDigit (N.shiftr (Byte.to_N b) 4)) with
       | Eq => Ascii.compare (hexDigit (N.land (Byte.to_N a) 15))
                 (hexDigit (N.land (Byte.to_N b) 15))
       | ne => ne
       end
  = sign (N.compare (Byte.to_N a) (Byte.to_N b)).
Proof.
  assert (forallb
            (fun a =>
               forallb
                 (fun b =>
                    sign match Ascii.compare (hexDigit (N.shiftr (Byte.to_N a) 4))
                                 (hexDigit (N.shiftr (Byte.to_N b) 4)) with
                         | Eq => Ascii.compare (hexDigit (N.land (Byte.to_N a) 15))
                                   (hexDigit (N.land (Byte.to_N b) 15))
                         | ne => ne
                         end
                    =? sign (N.compare (Byte.to_N a) (Byte.to_N b)))
                 allOctets) allOctets = true) as H
    by (vm_compute; reflexivity).
  rewrite forallb_forall in H. specialize (H a (in_allOctets a)).
  rewrite forallb_forall in H. specialize (H b (in_allOctets b)).
  apply Z.eqb_eq, H.
Qed.

Lemma ascii_compare_refl c : Ascii.compare c c = Eq.
Proof. unfold Ascii.compare. apply N.compare_refl. Qed.

(** The order of the texts is the order of the bytes. *)
Lemma compare_encodeHex x : forall y,
  List.length x = List.length y ->
  sign (String.compare (encodeHex x) (encodeHex y)) = lexicographic x y.
Proof.
  induction x as [|a x IH]; intros [|b y] Hl; try discriminate Hl;
    [reflexivity |].
  injection Hl as Hl. cbn [encodeHex String.compare lexicographic].
  destruct (N.eqb_spec (Byte.to_N a) (Byte.to_N b)) as [E|N].
  - apply byte_to_N_inj in E. subst b.
    rewrite !ascii_compare_refl. apply IH, Hl.
  - pose proof (digits_compare a b) as D.
    destruct (N.compare_spec (Byte.to_N a) (Byte.to_N b)) as [E|L|G];
      [contradiction | |].
    + destruct (N.ltb_spec (Byte.to_N a) (Byte.to_N b)); [| lia].
      destruct (Ascii.compare _ _); [| exact D | exact D].
      destruct (Ascii.compare _ _); [discriminate D | exact D | exact D].
    + destruct (N.ltb_spec (Byte.to_N a) (Byte.to_N b)); [lia |].
      destruct (Ascii.compare _ _); [| exact D | exact D].
      destruct (Ascii.compare _ _); [discriminate D | exact D | exact D].
Qed.

(** X9. [parse] then [toString] normalises the text: when [parse s] returns
    a Hash, its [toString] is the cleaned string in lowercase, and [parse]
    on that lowercase text returns the same Hash; digits of either case are
    accepted, lowercase ones are produced. *)
Theorem parse_normalises (s : string) (h : Hash) :
  parse s = Return h ->
  toString h = lowercaseString (cleanHex s)
  /\ parse (lowercaseString (cleanHex s)) = Return h.
Proof.
  intros H. apply bind_Return_inv in H as [bs [Hd Hn]].
  apply new_Hash_valid in Hn as [Hh Hv].
  assert (toString h = lowercaseString (cleanHex s)) as E
    by (unfold toString; rewrite Hh; apply encodeHex_decodeHex, Hd).
  split; [exact E |]. rewrite <- E. apply parse_toString, Hv.
Qed.

Lemma parse_normalises_witness :
  toString (mkHash (repeat xab 32))
  = lowercaseString (cleanHex
      "0xABabABabABabABabABabABabABabABabABabABabABabABabABabABabABabABab")
  /\ parse (lowercaseString (cleanHex
      "0xABabABabABabABabABabABabABabABabABabABabABabABabABabABabABabABab"))
     = Return (mkHash (repeat xab 32)).
Proof.
  apply (parse_normalises
    "0xABabABabABabABabABabABabABabABabABabABabABabABabABabABabABabABab"
    (mkHash (repeat xab 32))).
  reflexivity.
Defined.

(** X10. The order of [compareTo] is the order of the texts: on Hashes of
    32 bytes, [compareTo a b] is -1, 0 or 1 as [toString a] comes before,
    equals or comes after [toString b] in the character-by-character order
    of strings. *)
Theorem compareTo_orders_text (a b : Hash) :
  valid a -> valid b ->
  compareTo a b = sign (String.compare (toString a) (toString b)).
Proof.
  intros Ha Hb. rewrite compareTo_lexicographic by assumption.
  symmetry. apply compare_encodeHex. unfold valid in *. congruence.
Qed.

Lemma compareTo_orders_text_witness :
  compareTo hashOne hashTwo
  = sign (String.compare (toString hashOne) (toString hashTwo)).
Proof. apply (compareTo_orders_text hashOne hashTwo); reflexivity. Defined.

(* ================================================================== *)
(** * The abbreviation *)
(* ================================================================== *)

Lemma substring_nothing m : String.substring 0 m EmptyString = EmptyString.
Proof. destruct m; reflexivity. Qed.

Lemma substring_whole s : String.substring 0 (String.length s) s = s.
Proof.
  induction s as [|c s IH]; [reflexivity |].
  cbn [String.length String.substring]. rewrite IH. reflexivity.
Qed.

Lemma substring_encodeHex_head k : forall bs,
  String.substring 0 (2 * k) (encodeHex bs) = encodeHex (firstn k bs).
Proof.
  induction k as [|k IH]; intros bs.
  - destruct bs; reflexivity.
  - replace (2 * S k)%nat with (S (S (2 * k))) by lia.
    destruct bs as [|v bs]; [reflexivity |].
    cbn [encodeHex firstn String.substring]. rewrite IH. reflexivity.
Qed.

Lemma substring_encodeHex_tail k : forall m bs,
  String.substring (2 * k) m (encodeHex bs)
  = String.substring 0 m (encodeHex (skipn k bs)).
Proof.
  induction k as [|k IH]; intros m bs; [reflexivity |].
  replace (2 * S k)%nat with (S (S (2 * k))) by lia.
  destruct bs as [|v bs].
  - destruct m; reflexivity.
  - cbn [encodeHex skipn String.substring]. apply IH.
Qed.

Lemma string_app_inv s1 : forall s2 t1 t2,
  String.length s1 = String.length s2 ->
  s1 ++ t1 = s2 ++ t2 -> s1 = s2 /\ t1 = t2.
Proof.
  induction s1 as [|c s1 IH]; intros [|d s2] t1 t2 Hl H;
    try discriminate Hl.
  - split; [reflexivity | exact H].
  - cbn [append] in H. injection H as -> H. injection Hl as Hl.
    destruct (IH s2 t1 t2 Hl H) as [-> ->]. split; reflexivity.
Qed.

(** The abbreviation of a Hash of 32 bytes is made of the text of its first
    three and of its last three bytes. *)
Lemma toShortString_octets h :
  valid h ->
  toShortString h
  = encodeHex (firstn 3 (hash h)) ++ "..." ++ encodeHex (skipn 29 (hash h)).
Proof.
  intros Hv. pose proof (toString_length h Hv) as Hl.
  unfold toShortString. cbv zeta.
  rewrite substring_clamped by (rewrite ?Hl; lia).
  rewrite substring_to_end by (rewrite ?Hl; lia).
  rewrite Hl. unfold toString.
  change (Z.to_nat 0) with (2 * 0)%nat.
  change (Z.to_nat (6 - 0)) with (2 * 3)%nat.
  change (Z.to_nat (Z.of_nat 64 - 6)) with (2 * 29)%nat.
  change (64 - 2 * 29)%nat with 6%nat.
  rewrite (substring_encodeHex_tail 0), substring_encodeHex_head.
  rewrite substring_encodeHex_tail.
  assert (String.length (encodeHex (skipn 29 (hash h))) = 6%nat) as L.
  { rewrite encodeHex_length, length_skipn. unfold valid in Hv.
    rewrite Hv. reflexivity. }
  rewrite <- L at 1. rewrite substring_whole. reflexivity.
Qed.

(** X11. What [toShortString] keeps: two Hashes of 32 bytes have the same
    abbreviation exactly when their first three bytes and their last three
    bytes agree; the 26 bytes in between play no part. *)
Theorem toShortString_keeps (a b : Hash) :
  valid a -> valid b ->
  (toShortString a = toShortString b <->
   firstn 3 (hash a) = firstn 3 (hash b)
   /\ skipn 29 (hash a) = skipn 29 (hash b)).
Proof.
  intros Ha Hb. rewrite !toShortString_octets by assumption. split.
  - intros H. apply string_app_inv in H as [H1 H2].
    + injection H2 as H2. split; apply encodeHex_inj; assumption.
    + rewrite !encodeHex_length, !length_firstn. unfold valid in *.
      rewrite Ha, Hb. reflexivity.
  - intros [-> ->]. reflexivity.
Qed.

Lemma toShortString_keeps_witness :
  toShortString hashOne
  = toShortString
      (mkHash (repeat x00 15 ++ [xff] ++ repeat x00 15 ++ [x01])%list).
Proof.
  apply (toShortString_keeps hashOne
           (mkHash (repeat x00 15 ++ [xff] ++ repeat x00 15 ++ [x01])%list));
    [reflexivity | reflexivity |].
  split; reflexivity.
Defined.

(* ================================================================== *)
(** * Where [compareTo] stops *)
(* ================================================================== *)

Lemma strict_neq_same v : strict_neq v v = false.
Proof.
  destruct v as [b|]; [| reflexivity]. cbn [strict_neq].
  rewrite (byte_dec_lb (eq_refl b)). reflexivity.
Qed.

Lemma strict_neq_differ a b : a <> b -> strict_neq (Some a) (Some b) = true.
Proof.
  intros N. cbn [strict_neq]. destruct (Byte.eqb a b) eqn:E; [| reflexivity].
  apply byte_dec_bl in E. contradiction.
Qed.

Lemma compareTo_loop_leak fuel : forall i k x y a b,
  (LENGTH - i < fuel)%nat -> (i <= k < LENGTH)%nat ->
  (forall j, (i <= j < k)%nat -> index x j = index y j) ->
  index x k = Some a -> index y k = Some b -> a <> b ->
  snd (compareTo_loop fuel i x y)
  = (flat_map (fun j => [Branch true; Read j; Read j; Branch false])
       (seq i (k - i))
     ++ [Branch true; Read k; Read k; Branch true;
         Branch (Byte.to_N a <? Byte.to_N b)%N])%list.
Proof.
  induction fuel as [|fuel IH]; intros i k x y a b Hf Hk Hpre Ha Hb Hne;
    [lia |].
  cbn [compareTo_loop].
  destruct (Nat.ltb_spec i LENGTH) as [_|]; [| lia].
  destruct (Nat.eq_dec i k) as [->|Hik].
  - rewrite Ha, Hb, strict_neq_differ by exact Hne.
    rewrite Nat.sub_diag. reflexivity.
  - rewrite (Hpre i) by lia. rewrite strict_neq_same.
    specialize (IH (S i) k x y a b).
    destruct (compareTo_loop fuel (S i) x y) as [r t]. cbn [snd] in *.
    rewrite IH; try assumption; try lia.
    + replace (k - i)%nat with (S (k - S i)) by lia. reflexivity.
    + intros j Hj. apply Hpre. lia.
Qed.

Lemma flat_map_length4 {A} (f : nat -> list A) l :
  (forall j, List.length (f j) = 4%nat) ->
  List.length (flat_map f l) = (4 * List.length l)%nat.
Proof.
  intros Hf. induction l as [|j l IH]; [reflexivity |].
  cbn [flat_map List.length]. rewrite length_app, Hf, IH. lia.
Qed.

(** X12. [compareTo] stops at the first difference: when two Hashes agree
    below index [k] and differ at [k], the run tests and reads the pairs
    [0] to [k] and nothing after them, so what it lets an observer of
    branches and indices see, and how much (4k + 5 observations), depends on
    where the Hashes first differ, unlike [equals]. *)
Theorem compareTo_stops_at_difference (a b : Hash) (k : nat) (x y : byte) :
  (k < 32)%nat ->
  (forall j, (j < k)%nat -> index (hash a) j = index (hash b) j) ->
  index (hash a) k = Some x -> index (hash b) k = Some y -> x <> y ->
  snd (compareTo_run a b) = scanUntil k (Byte.to_N x <? Byte.to_N y)%N
  /\ List.length (snd (compareTo_run a b)) = (4 * k + 5)%nat.
Proof.
  intros Hk Hpre Hx Hy Hne.
  assert (snd (compareTo_run a b)
          = scanUntil k (Byte.to_N x <? Byte.to_N y)%N) as E.
  { unfold compareTo_run, scanUntil.
    rewrite (compareTo_loop_leak (S LENGTH) 0 k (hash a) (hash b) x y);
      try assumption; try (unfold LENGTH; lia).
    - rewrite Nat.sub_0_r. reflexivity.
    - intros j Hj. apply Hpre. lia. }
  split; [exact E |]. rewrite E. unfold scanUntil.
  rewrite length_app, flat_map_length4, length_seq by reflexivity.
  cbn [List.length]. lia.
Qed.

Lemma compareTo_stops_at_difference_witness :
  snd (compareTo_run hashOne hashTwo) = scanUntil 31 true
  /\ List.length (snd (compareTo_run hashOne hashTwo)) = (4 * 31 + 5)%nat.
Proof.
  apply (compareTo_stops_at_difference hashOne hashTwo 31 x01 x02).
  - lia.
  - intros j Hj.
    do 31 (destruct j as [|j]; [reflexivity |]). lia.
  - reflexivity.
  - reflexivity.
  - discriminate.
Defined.

(* ================================================================== *)
(** * The two levels agree *)
(* ================================================================== *)

(** X13. Construction fails without allocating, or copies: on an array
    holding [content], [fromBytes] on references throws exactly the error
    of the value-level [fromBytes content], and then the store of arrays is
    unchanged; otherwise it returns an instance whose buffer is an array
    that did not exist before, is not the argument, and holds the bytes of
    the value-level Hash, every existing array being left as it was; and
    [getBytes] on that instance returns a further array that did not exist
    before, distinct from the buffer, holding the value-level [getBytes]. *)
Theorem levels_agree (st : Heap.Store) (bytes : Heap.Ref)
  (content : Uint8Array) :
  Heap.deref st bytes = Some content ->
  match fromBytes content with
  | Throw e => Heap.fromBytes st bytes = Some (Throw e, st)
  | Return h =>
      exists o st1,
        Heap.fromBytes st bytes = Some (Return o, st1)
        /\ Heap.deref st (Heap.buffer o) = None
        /\ Heap.buffer o <> bytes
        /\ (forall r, (r < List.length st)%nat ->
                      Heap.deref st1 r = Heap.deref st r)
        /\ Heap.deref st1 (Heap.buffer o) = Some (getBytes h)
        /\ exists out st2,
             Heap.getBytes st1 o = Some (out, st2)
             /\ Heap.deref st1 out = None
             /\ out <> Heap.buffer o
             /\ out <> bytes
             /\ Heap.deref st2 out = Some (getBytes h)
             /\ Heap.deref st2 (Heap.buffer o) = Some (getBytes h)
  end.
Proof.
  intros Hc. pose proof (deref_allocated _ _ _ Hc) as Hb.
  unfold fromBytes, new_Hash, Heap.fromBytes, Heap.new_Hash.
  rewrite Hc.
  destruct (Nat.eqb_spec (List.length content) LENGTH) as [Hl|Hl];
    cbn [negb]; [| reflexivity].
  pose proof (alloc_new st content) as Hnew. cbn [Heap.alloc fst snd] in Hnew.
  assert (List.length (st ++ [content])%list = S (List.length st)) as Hlen
    by (rewrite length_app; cbn [List.length]; lia).
  exists (Heap.mkObject (List.length st)), (st ++ [content])%list.
  cbn [Heap.alloc Heap.buffer getBytes hash].
  split; [reflexivity |].
  split; [apply deref_beyond |].
  split; [lia |].
  split; [intros r Hr; apply (alloc_old st content r Hr) |].
  split; [exact Hnew |].
  exists (List.length (st ++ [content])%list),
         ((st ++ [content]) ++ [content])%list.
  split; [apply (getBytes_allocates _ (Heap.mkObject (List.length st))
                   content Hnew) |].
  split; [apply deref_beyond |].
  split; [lia |]. split; [lia |].
  split; [apply (alloc_new (st ++ [content])%list content) |].
  transitivity (Heap.deref (st ++ [content])%list (List.length st));
    [apply (alloc_old (st ++ [content])%list content (List.length st)); lia
    | exact Hnew].
Qed.

Lemma levels_agree_witness :
  Heap.fromBytes [repeat x00 33] 0%nat
  = Some (Throw (Error "Hash validation failed: expected 32 bytes, but got 33."),
          [repeat x00 33])
  /\ exists o st1,
       Heap.fromBytes [lastByteOne] 0%nat = Some (Return o, st1)
       /\ Heap.deref [lastByteOne] (Heap.buffer o) = None
       /\ Heap.buffer o <> 0%nat
       /\ (forall r, (r < 1)%nat ->
                     Heap.deref st1 r = Heap.deref [lastByteOne] r)
       /\ Heap.deref st1 (Heap.buffer o) = Some lastByteOne
       /\ exists out st2,
            Heap.getBytes st1 o = Some (out, st2)
            /\ Heap.deref st1 out = None
            /\ out <> Heap.buffer o
            /\ out <> 0%nat
            /\ Heap.deref st2 out = Some lastByteOne
            /\ Heap.deref st2 (Heap.buffer o) = Some lastByteOne.
Proof.
  split.
  - apply (levels_agree [repeat x00 33] 0%nat (repeat x00 33)). reflexivity.
  - apply (levels_agree [lastByteOne] 0%nat lastByteOne). reflexivity.
Defined.
